(** * Single-instance coordination: [client.lock] and [client.socket]

    A shallow embedding of [libs/client/src/client/lock.py] and
    [libs/client/src/client/socket.py].  The two classes are written against
    the operating system: descriptors, advisory locks, a directory, a
    monotonic clock, the environment and IPC endpoints.  The development
    therefore has three layers:

    - the operating system as a record [world] and each call the source makes
      ([os.open], [fcntl.flock], [msvcrt.locking], [os.fchmod], [os.close],
      [Path.unlink], [time.sleep], ...) as a function on it that returns
      either a value or an [errno];
    - Python's control flow (exceptions, [try]/[except]/[else], [with],
      [suppress]) as a state-and-exception monad over a [process]: the
      objects of the program, the operating system and the log output;
    - the methods of [LockClient] and [SocketClient], written in that monad
      statement by statement. *)

From Stdlib Require Import ZArith Lia Ascii String.
From stdpp Require Import base tactics option list gmap strings infinite functions.

Local Open Scope Z_scope.

(** ** Error numbers and Python's exceptions *)

Definition EPERM : Z := 1.
Definition ENOENT : Z := 2.
Definition EINTR : Z := 4.
Definition EIO : Z := 5.
Definition EBADF : Z := 9.
Definition EWOULDBLOCK : Z := 11.
Definition EACCES : Z := 13.
Definition EEXIST : Z := 17.
Definition EINVAL : Z := 22.
Definition EDEADLOCK : Z := 36.
Definition ENOLCK : Z := 37.
Definition ENOSYS : Z := 38.
Definition ECONNRESET : Z := 104.
Definition ECONNREFUSED : Z := 111.

(** The exceptions the two modules meet.  Every failure of an operating
    system call surfaces in Python as [OSError] carrying the [errno]; the
    subclasses the source names are selected by that number. *)
Inductive exn :=
| OSError (errno : Z)
| ValueError
| SocketPathError.

Definition is_OSError (e : exn) : bool :=
  match e with OSError _ => true | _ => false end.

Definition errno_of (e : exn) : Z :=
  match e with OSError n => n | _ => 0 end.

Definition is_PermissionError (e : exn) : bool :=
  match e with OSError n => (n =? EACCES) || (n =? EPERM) | _ => false end.

Definition is_FileNotFoundError (e : exn) : bool :=
  match e with OSError n => n =? ENOENT | _ => false end.

Definition is_ConnectionRefusedError (e : exn) : bool :=
  match e with OSError n => n =? ECONNREFUSED | _ => false end.

Definition is_Exception (e : exn) : bool := true.

Inductive outcome (A : Type) :=
| Return (a : A)
| Raise (e : exn).
Arguments Return {A} a.
Arguments Raise {A} e.

(** The result of one operating system call. *)
Inductive sysres (A : Type) :=
| Ok (a : A)
| Err (errno : Z).
Arguments Ok {A} a.
Arguments Err {A} errno.

(** ** The operating system *)

(** Flags of [os.open], operations of [fcntl.flock] and modes of
    [msvcrt.locking], with the values Linux and the Microsoft C runtime give
    them. *)
Definition O_RDONLY : Z := 0.
Definition O_WRONLY : Z := 1.
Definition O_RDWR : Z := 2.
Definition O_ACCMODE : Z := 3.
Definition O_CREAT : Z := 64.
Definition O_EXCL : Z := 128.

Definition LOCK_SH : Z := 1.
Definition LOCK_EX : Z := 2.
Definition LOCK_NB : Z := 4.
Definition LOCK_UN : Z := 8.

Definition LK_UNLCK : Z := 0.
Definition LK_LOCK : Z := 1.
Definition LK_NBLCK : Z := 2.
Definition LK_RLCK : Z := 3.
Definition LK_NBRLCK : Z := 4.

Definition has_flag (flag flags : Z) : bool := negb (Z.land flags flag =? 0).

(** Who holds a lock on a file: one of this process's descriptors (locks
    belong to the open file, so two descriptors of one process compete like
    two processes), or some other process. *)
Inductive owner :=
| Desc (fd : Z)
| Foreign.

Global Instance owner_eq_dec : EqDecision owner.
Proof. solve_decision. Defined.

(** A file: permission bits, whether this process's user owns it, and the
    locks currently held on it (holder, exclusive?). *)
Record inode := {
  i_mode : Z;
  i_owned : bool;
  i_holders : list (owner * bool);
}.

(** A connection endpoint: a peer is listening, or connecting fails with the
    given [errno] (a dead socket file refuses, a protected one denies). *)
Inductive endpoint :=
| Listening
| Unavailable (errno : Z).

(** An open transport: the address it is connected to, if any, and the error
    closing it will report, if any. *)
Record conn := {
  c_peer : option string;
  c_close_errno : option Z;
}.

(** What other processes do to the lock file while this one sleeps. *)
Inductive ext_event :=
| TheyCreate (path : string) (mode : Z)
| TheyLock (path : string)
| TheyUnlock (path : string)
| TheyUnlink (path : string).

Record world := {
  windows : bool;                  (* platform.system() in {'Windows', 'Microsoft'} *)
  names : gmap string nat;         (* directory entries: path to file *)
  inodes : gmap nat inode;         (* files *)
  dir_writable : bool;             (* may this process create and remove entries
                                      in the directory? (EACCES if not) *)
  lock_errno : option Z;           (* errno with which the file system rejects
                                      lock requests, if it does *)
  fds : gmap Z nat;                (* this process's descriptor table *)
  now : Z;                         (* monotonic clock, in milliseconds *)
  pending : list (Z * ext_event);  (* other processes' actions and their times *)
  environ : gmap string string;    (* os.environ *)
  endpoints : gmap string endpoint;
  conns : gmap Z conn;             (* this process's sockets and pipes *)
}.

Definition set_files (nm : gmap string nat) (ino : gmap nat inode) (w : world) : world :=
  {| windows := windows w; names := nm; inodes := ino; dir_writable := dir_writable w;
     lock_errno := lock_errno w; fds := fds w; now := now w; pending := pending w;
     environ := environ w; endpoints := endpoints w; conns := conns w |}.

Definition set_fds (t : gmap Z nat) (w : world) : world :=
  {| windows := windows w; names := names w; inodes := inodes w; dir_writable := dir_writable w;
     lock_errno := lock_errno w; fds := t; now := now w; pending := pending w;
     environ := environ w; endpoints := endpoints w; conns := conns w |}.

Definition set_clock (t : Z) (evs : list (Z * ext_event)) (w : world) : world :=
  {| windows := windows w; names := names w; inodes := inodes w; dir_writable := dir_writable w;
     lock_errno := lock_errno w; fds := fds w; now := t; pending := evs;
     environ := environ w; endpoints := endpoints w; conns := conns w |}.

Definition set_conns (t : gmap Z conn) (w : world) : world :=
  {| windows := windows w; names := names w; inodes := inodes w; dir_writable := dir_writable w;
     lock_errno := lock_errno w; fds := fds w; now := now w; pending := pending w;
     environ := environ w; endpoints := endpoints w; conns := t |}.

Definition set_holders (hs : list (owner * bool)) (f : inode) : inode :=
  {| i_mode := i_mode f; i_owned := i_owned f; i_holders := hs |}.

Definition set_mode (m : Z) (f : inode) : inode :=
  {| i_mode := m; i_owned := i_owned f; i_holders := i_holders f |}.

(** [Path.exists]. *)
Definition path_exists (path : string) (w : world) : bool :=
  bool_decide (is_Some (names w !! path)).

(** The permission bits that apply to this process, and whether they allow
    the access mode asked for in [flags]. *)
Definition perm_bits (f : inode) : Z :=
  Z.land (if i_owned f then Z.shiftr (i_mode f) 6 else i_mode f) 7.

Definition may_open (flags : Z) (f : inode) : bool :=
  let acc := Z.land flags O_ACCMODE in
  let r := Z.testbit (perm_bits f) 2 in
  let wr := Z.testbit (perm_bits f) 1 in
  if acc =? O_RDONLY then r
  else if acc =? O_WRONLY then wr
  else r && wr.

(** [os.open(path, flags, mode)]: with [O_CREAT | O_EXCL] the path must not
    exist; a new file is owned by the caller and unlocked.  The process's
    umask is not modelled: a new file gets the bits asked for. *)
Definition os_open (path : string) (flags mode : Z) (w : world) : sysres Z * world :=
  match names w !! path with
  | Some ino =>
      if has_flag O_CREAT flags && has_flag O_EXCL flags then (Err EEXIST, w)
      else match inodes w !! ino with
           | Some f =>
               if may_open flags f then
                 let fd := fresh (dom (fds w)) in
                 (Ok fd, set_fds (<[fd := ino]> (fds w)) w)
               else (Err EACCES, w)
           | None => (Err ENOENT, w)
           end
  | None =>
      if has_flag O_CREAT flags then
        if dir_writable w then
          let ino := fresh (dom (inodes w)) in
          let fd := fresh (dom (fds w)) in
          let f := {| i_mode := mode; i_owned := true; i_holders := [] |} in
          (Ok fd, set_fds (<[fd := ino]> (fds w))
                    (set_files (<[path := ino]> (names w)) (<[ino := f]> (inodes w)) w))
        else (Err EACCES, w)
      else (Err ENOENT, w)
  end.

Definition others (fd : Z) (hs : list (owner * bool)) : list (owner * bool) :=
  filter (λ h, h.1 ≠ Desc fd) hs.

Definition update_inode (ino : nat) (f : inode) (w : world) : world :=
  set_files (names w) (<[ino := f]> (inodes w)) w.

(** [fcntl.flock(fd, operation)].  The operation is one of [LOCK_SH],
    [LOCK_EX] and [LOCK_UN], possibly or-ed with [LOCK_NB]; anything else is
    [EINVAL].  A request that conflicts fails with [EWOULDBLOCK] when
    [LOCK_NB] is given; without it the caller would sleep, which is reported
    here as an interrupted call. *)
Definition fcntl_flock (fd op : Z) (w : world) : sysres unit * world :=
  match fds w !! fd with
  | None => (Err EBADF, w)
  | Some ino =>
      let cmd := Z.ldiff op LOCK_NB in
      let busy := if has_flag LOCK_NB op then EWOULDBLOCK else EINTR in
      if negb ((cmd =? LOCK_SH) || (cmd =? LOCK_EX) || (cmd =? LOCK_UN)) then (Err EINVAL, w)
      else match lock_errno w, inodes w !! ino with
           | Some e, _ => (Err e, w)
           | None, None => (Err EBADF, w)
           | None, Some f =>
               let rest := others fd (i_holders f) in
               if cmd =? LOCK_UN then (Ok tt, update_inode ino (set_holders rest f) w)
               else if cmd =? LOCK_EX then
                 match rest with
                 | [] => (Ok tt, update_inode ino (set_holders [(Desc fd, true)] f) w)
                 | _ :: _ => (Err busy, w)
                 end
               else
                 if forallb (λ h, negb h.2) rest
                 then (Ok tt, update_inode ino (set_holders ((Desc fd, false) :: rest) f) w)
                 else (Err busy, w)
           end
  end.

(** [msvcrt.locking(fd, mode, nbytes)] on the first bytes of the file: a
    region locked through any handle cannot be locked again; unlocking a
    region this handle has not locked is an error. *)
Definition msvcrt_locking (fd mode nbytes : Z) (w : world) : sysres unit * world :=
  match fds w !! fd with
  | None => (Err EBADF, w)
  | Some ino =>
      match inodes w !! ino with
      | None => (Err EBADF, w)
      | Some f =>
          if mode =? LK_UNLCK then
            if bool_decide ((Desc fd, true) ∈ i_holders f)
            then (Ok tt, update_inode ino (set_holders (others fd (i_holders f)) f) w)
            else (Err EACCES, w)
          else if (mode =? LK_LOCK) || (mode =? LK_NBLCK) || (mode =? LK_RLCK) || (mode =? LK_NBRLCK) then
            match lock_errno w, i_holders f with
            | Some e, _ => (Err e, w)
            | None, [] => (Ok tt, update_inode ino (set_holders [(Desc fd, true)] f) w)
            | None, _ :: _ =>
                (Err (if (mode =? LK_NBLCK) || (mode =? LK_NBRLCK) then EACCES else EDEADLOCK), w)
            end
          else (Err EINVAL, w)
      end
  end.

(** [os.fchmod(fd, mode)]: only the owner may change the bits. *)
Definition os_fchmod (fd mode : Z) (w : world) : sysres unit * world :=
  match fds w !! fd with
  | None => (Err EBADF, w)
  | Some ino =>
      match inodes w !! ino with
      | None => (Err EBADF, w)
      | Some f =>
          if i_owned f then (Ok tt, update_inode ino (set_mode mode f) w)
          else (Err EPERM, w)
      end
  end.

(** [os.close(fd)]: the descriptor goes, and with it the locks it held. *)
Definition os_close (fd : Z) (w : world) : sysres unit * world :=
  match fds w !! fd with
  | None => (Err EBADF, w)
  | Some ino =>
      let w1 := set_fds (delete fd (fds w)) w in
      match inodes w !! ino with
      | None => (Ok tt, w1)
      | Some f => (Ok tt, update_inode ino (set_holders (others fd (i_holders f)) f) w1)
      end
  end.

(** [os.unlink(path)]: removes the name; the file itself lives on for the
    descriptors that are still open on it. *)
Definition os_unlink (path : string) (w : world) : sysres unit * world :=
  match names w !! path with
  | None => (Err ENOENT, w)
  | Some _ =>
      if dir_writable w then (Ok tt, set_files (delete path (names w)) (inodes w) w)
      else (Err EACCES, w)
  end.

(** Other processes. *)
Definition apply_event (w : world) (ev : ext_event) : world :=
  match ev with
  | TheyCreate path mode =>
      match names w !! path with
      | Some _ => w
      | None =>
          let ino := fresh (dom (inodes w)) in
          set_files (<[path := ino]> (names w))
            (<[ino := {| i_mode := mode; i_owned := true; i_holders := [] |}]> (inodes w)) w
      end
  | TheyLock path =>
      match names w !! path with
      | None => w
      | Some ino =>
          match inodes w !! ino with
          | Some f =>
              match i_holders f with
              | [] => update_inode ino (set_holders [(Foreign, true)] f) w
              | _ :: _ => w
              end
          | None => w
          end
      end
  | TheyUnlock path =>
      match names w !! path with
      | None => w
      | Some ino =>
          match inodes w !! ino with
          | Some f =>
              update_inode ino (set_holders (filter (λ h, h.1 ≠ Foreign) (i_holders f)) f) w
          | None => w
          end
      end
  | TheyUnlink path => set_files (delete path (names w)) (inodes w) w
  end.

(** Time passes: the clock moves on by [d] and every action of another
    process that was due by then has happened, in order. *)
Definition advance (d : Z) (w : world) : world :=
  let t := now w + d in
  let due := filter (λ ev, ev.1 ≤ t) (pending w) in
  let later := filter (λ ev, ¬ ev.1 ≤ t) (pending w) in
  set_clock t later (foldl apply_event w (due.*2)).

(** [time.monotonic()] and [time.sleep(secs)], in milliseconds. *)
Definition time_monotonic (w : world) : Z := now w.

Definition time_sleep (d : Z) (w : world) : outcome unit * world :=
  if d <? 0 then (Raise ValueError, w) else (Return tt, advance d w).

(** ** The process: objects, operating system, log *)

Definition loc := nat.

(** [LockClient]: [_mode], [_fd], and the value of the cached property
    [lockfile] (a path in the temporary directory named after a hash of the
    executable's path).  The first evaluation of the property is not
    modelled: a client here is one whose lock path is resolved. *)
Record LockClient := {
  _mode : Z;
  _fd : option Z;
  lockfile : string;
}.

(** [AcquireLock] holds a reference to the client, not a copy. *)
Record AcquireLock := { lock : loc }.

(** [socket.socket | BinaryIO] *)
Inductive transport :=
| Socket (id : Z)
| Pipe (id : Z).

(** [SocketClient]: [name], [default_path], [_pipe], and the cache of the
    cached property [socket_path] (empty until first resolved). *)
Record SocketClient := {
  name : string;
  default_path : option string;
  _pipe : option transport;
  socket_path_cache : option string;
}.

Record ConnectSocket := { socket : loc }.

(** [log.debug], [log.warning], [log.exception] *)
Inductive level :=
| Debug
| Warning
| Exception.

Global Instance level_eq_dec : EqDecision level.
Proof. solve_decision. Defined.

Record process := {
  lock_clients : loc → LockClient;
  socket_clients : loc → SocketClient;
  os : world;
  logged : list (level * string);
}.

Definition with_os (w : world) (p : process) : process :=
  {| lock_clients := lock_clients p; socket_clients := socket_clients p;
     os := w; logged := logged p |}.

Definition with_logged (l : list (level * string)) (p : process) : process :=
  {| lock_clients := lock_clients p; socket_clients := socket_clients p;
     os := os p; logged := l |}.

Definition with_lock_clients (h : loc → LockClient) (p : process) : process :=
  {| lock_clients := h; socket_clients := socket_clients p;
     os := os p; logged := logged p |}.

Definition with_socket_clients (h : loc → SocketClient) (p : process) : process :=
  {| lock_clients := lock_clients p; socket_clients := h;
     os := os p; logged := logged p |}.

(** ** Python's control flow *)

Definition M (A : Type) : Type := process → outcome A * process.

Definition ret {A} (a : A) : M A := λ p, (Return a, p).

Definition bind {A B} (m : M A) (f : A → M B) : M B := λ p,
  match m p with
  | (Return a, p') => f a p'
  | (Raise e, p') => (Raise e, p')
  end.

Declare Scope py_scope.
Delimit Scope py_scope with py.
Notation "x ← y ; z" := (bind y (λ x, z))
  (at level 20, y at level 100, z at level 200, only parsing) : py_scope.
Notation "x ;; z" := (bind x (λ _, z))
  (at level 100, z at level 200, only parsing, right associativity) : py_scope.
Local Open Scope py_scope.

Definition raise {A} (e : exn) : M A := λ p, (Raise e, p).

(** [try: body / except <catches> as err: handler / else: orelse].  The
    [else] suite runs after a body that did not raise, outside the reach of
    the handler. *)
Definition try_except_else {A B} (body : M A) (catches : exn → bool)
    (handler : exn → M B) (orelse : A → M B) : M B := λ p,
  match body p with
  | (Return a, p') => orelse a p'
  | (Raise e, p') => if catches e then handler e p' else (Raise e, p')
  end.

Definition try_except {A} (body : M A) (catches : exn → bool) (handler : exn → M A) : M A :=
  try_except_else body catches handler ret.

(** [with suppress(<catches>): body] *)
Definition suppress (catches : exn → bool) (body : M unit) : M unit :=
  try_except body catches (λ _, ret tt).

Definition ask {A} (f : process → A) : M A := λ p, (Return (f p), p).

(** An operating system call: an [errno] becomes an [OSError]. *)
Definition sys {A} (call : world → sysres A * world) : M A := λ p,
  match call (os p) with
  | (Ok a, w) => (Return a, with_os w p)
  | (Err n, w) => (Raise (OSError n), with_os w p)
  end.

Definition sleep (d : Z) : M unit := λ p,
  let (r, w) := time_sleep d (os p) in (r, with_os w p).

Definition monotonic : M Z := ask (λ p, time_monotonic (os p)).

Definition log (lv : level) (event : string) : M unit := λ p,
  (Return tt, with_logged (logged p ++ [(lv, event)]) p).

(** [client.system.windows_check] *)
Definition windows_check : M bool := ask (λ p, windows (os p)).

(** [with Path(path).open(mode) as file: body]: the file is closed on the
    way out, whether the body raised or not. *)
Definition closing {A} (fd : Z) (body : M A) : M A := λ p,
  match body p with
  | (Return a, p') => (sys (os_close fd);; ret a) p'
  | (Raise e, p') => (sys (os_close fd);; raise e) p'
  end.

Definition with_open {A} (path : string) (flags : Z) (body : Z → M A) : M A :=
  fd ← sys (os_open path flags 438);
  closing fd (body fd).

(** [Path.unlink(missing_ok)] *)
Definition Path_unlink (path : string) (missing_ok : bool) : M unit :=
  try_except (sys (os_unlink path)) is_FileNotFoundError
    (λ err, if missing_ok then ret tt else raise err).

(** ** [LockClient] *)

Definition this_lock (self : loc) : M LockClient := ask (λ p, lock_clients p self).

Definition set_fd (self : loc) (v : option Z) : M unit := λ p,
  let c := lock_clients p self in
  (Return tt,
   with_lock_clients
     (<[self := {| _mode := _mode c; _fd := v; lockfile := lockfile c |}]> (lock_clients p)) p).

(** [is_locked]: [self._fd is not None] *)
Definition is_locked (c : LockClient) : bool :=
  match _fd c with Some _ => true | None => false end.

Definition acquire (self : loc) : M AcquireLock :=
  c ← this_lock self;
  (if negb (is_locked c) then
     log Debug "Acquiring lock on file";;
     let flags := Z.lor (Z.lor O_RDWR O_CREAT) O_EXCL in
     try_except_else
       (fd ← sys (os_open (lockfile c) flags (_mode c));
        set_fd self (Some fd);;
        ret fd)
       is_OSError
       (λ err,
          (if errno_of err =? EACCES
           then log Warning "Permission denied when opening lockfile"
           else log Exception "Failed to open lockfile");;
          set_fd self None)
       (λ fd,
          try_except
            (win ← windows_check;
             if win then sys (msvcrt_locking fd LK_NBLCK 1)
             else sys (fcntl_flock fd (Z.lor LOCK_EX LOCK_NB)))
            is_OSError
            (λ err,
               (if negb (errno_of err =? EACCES)
                then log Warning "Permission denied during file lock operation"
                else if errno_of err =? ENOSYS
                then log Exception "Locking not supported on filesystem"
                else log Exception "Failed to locking file");;
               sys (os_close fd);;
               set_fd self None))
   else ret tt);;
  ret {| lock := self |}.

(** The body of the [try] in [release]: unlock, restore the permission bits
    (POSIX only, a [PermissionError] is suppressed), close. *)
Definition unlock_and_close (c : LockClient) (fd : Z) : M unit :=
  win ← windows_check;
  (if win then sys (msvcrt_locking fd LK_UNLCK 1)
   else
     suppress is_PermissionError (sys (os_fchmod fd (_mode c)));;
     sys (fcntl_flock fd LOCK_UN));;
  sys (os_close fd).

(** What [release] does before the [try]: the fixed delay and a debug line. *)
Definition release_delay : M unit :=
  sleep 300;;
  log Debug "Release lock".

Definition release (self : loc) : M unit :=
  c ← this_lock self;
  match _fd c with
  | None => ret tt
  | Some fd =>
      release_delay;;
      try_except_else (unlock_and_close c fd) is_Exception
        (λ _, log Exception "Lock release failed")
        (λ _, log Debug "Lock release successfully";; set_fd self None);;
      suppress is_FileNotFoundError (Path_unlink (lockfile c) true)
  end.

(** The body of the [with] in [exists_running]: take the lock without
    blocking and give it back at once. *)
Definition probe_lock (fd : Z) : M unit :=
  win ← windows_check;
  if win then
    sys (msvcrt_locking fd LK_NBLCK 1);;
    sys (msvcrt_locking fd LK_UNLCK 1)
  else
    sys (fcntl_flock fd LOCK_NB);;
    sys (fcntl_flock fd LOCK_UN).

Definition exists_running (self : loc) : M bool :=
  c ← this_lock self;
  present ← ask (λ p, path_exists (lockfile c) (os p));
  if is_locked c || negb present then ret false
  else
    try_except
      (with_open (lockfile c) O_RDWR probe_lock;;
       ret false)
      is_OSError
      (λ _, ret true).

(** [timeout is not None and (time.monotonic() - start) >= timeout] *)
Definition expired (timeout : option Z) (start t : Z) : bool :=
  match timeout with
  | None => false
  | Some limit => limit <=? t - start
  end.

(** The [while] loop of [wait].  [None] is returned when [fuel] iterations
    were not enough for the loop to end. *)
Fixpoint wait_loop (fuel : nat) (self : loc) (timeout : option Z) (interval start : Z)
    : M (option bool) :=
  match fuel with
  | O => ret None
  | S fuel' =>
      running ← exists_running self;
      if running then
        t ← monotonic;
        if expired timeout start t then ret (Some false)
        else
          sleep interval;;
          wait_loop fuel' self timeout interval start
      else ret (Some true)
  end.

Definition wait (fuel : nat) (self : loc) (timeout : option Z) (interval : Z)
    : M (option bool) :=
  start ← monotonic;
  log Debug "Wait for other lock to end";;
  wait_loop fuel self timeout interval start.

(** [AcquireLock.__enter__] and [AcquireLock.__exit__] *)
Definition AcquireLock_enter (g : AcquireLock) : M loc := ret (lock g).

Definition AcquireLock_exit (g : AcquireLock) : M unit := release (lock g).

(** [LockClient.__enter__] and [LockClient.__exit__] *)
Definition LockClient_enter (self : loc) : M loc :=
  acquire self;;
  ret self.

Definition LockClient_exit (self : loc) : M unit := release self.

(** ** Paths, environment and transports *)

(** [str(Path(base) / segment)] on POSIX, after [pathlib]: the two strings are
    joined as [posixpath.join] does, the result is split at its root, empty
    and ['.'] components are dropped, and what is left is put together
    again. *)
Definition starts_with_sep (s : string) : bool :=
  match s with
  | String "/"%char _ => true
  | _ => false
  end.

Fixpoint ends_with_sep (s : string) : bool :=
  match s with
  | EmptyString => false
  | String c EmptyString => bool_decide (c = "/"%char)
  | String _ rest => ends_with_sep rest
  end.

Definition posixpath_join (a b : string) : string :=
  if starts_with_sep b then b
  else if bool_decide (a = "") || ends_with_sep a then a +:+ b
  else a +:+ "/" +:+ b.

Definition splitroot (p : string) : string * string :=
  match p with
  | String "/"%char (String "/"%char (String "/"%char _) as rel) => ("/", rel)
  | String "/"%char (String "/"%char rel) => ("//", rel)
  | String "/"%char rel => ("/", rel)
  | _ => ("", p)
  end.

Fixpoint split_sep (s cur : string) : list string :=
  match s with
  | EmptyString => [cur]
  | String c rest =>
      if bool_decide (c = "/"%char) then cur :: split_sep rest ""
      else split_sep rest (cur +:+ String c "")
  end.

Definition path_tail (rel : string) : list string :=
  filter (λ x, x ≠ "" ∧ x ≠ ".") (split_sep rel "").

Definition PurePosixPath_str (p : string) : string :=
  let (root, rel) := splitroot p in
  let body := String.concat "/" (path_tail rel) in
  if bool_decide (root = "") then (if bool_decide (body = "") then "." else body)
  else root +:+ body.

Definition Path_div (base segment : string) : string :=
  PurePosixPath_str (posixpath_join base segment).

(** [os.getenv] *)
Definition getenv (var : string) : M (option string) := ask (λ p, environ (os p) !! var).

(** [socket.socket(AF_UNIX)]: a new socket, not yet connected. *)
Definition socket_new (w : world) : sysres Z * world :=
  let id := fresh (dom (conns w)) in
  (Ok id, set_conns (<[id := {| c_peer := None; c_close_errno := None |}]> (conns w)) w).

(** [sock.connect(address)]: an address nobody has bound does not exist. *)
Definition socket_connect (id : Z) (addr : string) (w : world) : sysres unit * world :=
  match conns w !! id with
  | None => (Err EBADF, w)
  | Some c =>
      match endpoints w !! addr with
      | None => (Err ENOENT, w)
      | Some (Unavailable e) => (Err e, w)
      | Some Listening =>
          (Ok tt, set_conns (<[id := {| c_peer := Some addr; c_close_errno := c_close_errno c |}]> (conns w)) w)
      end
  end.

(** [open(path, 'r+b', buffering=0)] on a named pipe. *)
Definition open_pipe (addr : string) (w : world) : sysres Z * world :=
  match endpoints w !! addr with
  | None => (Err ENOENT, w)
  | Some (Unavailable e) => (Err e, w)
  | Some Listening =>
      let id := fresh (dom (conns w)) in
      (Ok id, set_conns (<[id := {| c_peer := Some addr; c_close_errno := None |}]> (conns w)) w)
  end.

(** [pipe.close()]: closing an object that is closed already does nothing;
    otherwise the handle is given up first and an error of the underlying
    close is reported after that (a socket swallows [ECONNRESET]). *)
Definition transport_close (t : transport) (w : world) : sysres unit * world :=
  let id := match t with Socket id => id | Pipe id => id end in
  match conns w !! id with
  | None => (Ok tt, w)
  | Some c =>
      let w' := set_conns (delete id (conns w)) w in
      match c_close_errno c, t with
      | None, _ => (Ok tt, w')
      | Some e, Socket _ => if e =? ECONNRESET then (Ok tt, w') else (Err e, w')
      | Some e, Pipe _ => (Err e, w')
      end
  end.

(** ** [SocketClient] *)

Definition this_socket (self : loc) : M SocketClient := ask (λ p, socket_clients p self).

Definition set_pipe (self : loc) (v : option transport) : M unit := λ p,
  let c := socket_clients p self in
  (Return tt,
   with_socket_clients
     (<[self := {| name := name c; default_path := default_path c; _pipe := v;
                   socket_path_cache := socket_path_cache c |}]> (socket_clients p)) p).

Definition set_socket_path_cache (self : loc) (v : option string) : M unit := λ p,
  let c := socket_clients p self in
  (Return tt,
   with_socket_clients
     (<[self := {| name := name c; default_path := default_path c; _pipe := _pipe c;
                   socket_path_cache := v |}]> (socket_clients p)) p).

(** The [for var in (...)] loop of [socket_path]: the first variable that is
    set and not empty decides. *)
Fixpoint first_base_dir (c : SocketClient) (vars : list string) : M string :=
  match vars with
  | [] => raise SocketPathError
  | var :: rest =>
      base_dir ← getenv var;
      match base_dir with
      | Some (String _ _ as dir) => ret (Path_div dir ("." +:+ name c))
      | _ => first_base_dir c rest
      end
  end.

(** The body of the property [socket_path]. *)
Definition socket_path_body (c : SocketClient) : M string :=
  match default_path c with
  | Some (String _ _ as path) => ret path
  | _ =>
      win ← windows_check;
      if win then ret ("\\.\pipe\" +:+ name c)
      else first_base_dir c ["XDG_RUNTIME_DIR"; "HOME"; "TMPDIR"]
  end.

(** [socket_path] is a [cached_property]: the body runs on first access and
    its value is kept; a body that raises caches nothing. *)
Definition socket_path (self : loc) : M string :=
  c ← this_socket self;
  match socket_path_cache c with
  | Some path => ret path
  | None =>
      path ← socket_path_body c;
      set_socket_path_cache self (Some path);;
      ret path
  end.

(** [is_connect]: [self._pipe is not None] *)
Definition is_connect (c : SocketClient) : bool :=
  match _pipe c with Some _ => true | None => false end.

Definition connect (self : loc) : M ConnectSocket :=
  c ← this_socket self;
  (if negb (is_connect c) then
     path ← socket_path self;
     log Debug "Attempting to connecting socket";;
     try_except_else
       (win ← windows_check;
        if win then
          pipe ← sys (open_pipe path);
          set_pipe self (Some (Pipe pipe))
        else
          sock ← sys socket_new;
          sys (socket_connect sock path);;
          set_pipe self (Some (Socket sock)))
       (λ err, is_FileNotFoundError err || is_ConnectionRefusedError err)
       (λ _,
          log Exception "Socket connection failed";;
          set_pipe self None)
       (λ _, log Debug "Socket connection established")
   else ret tt);;
  ret {| socket := self |}.

Definition disconnect (self : loc) : M unit :=
  c ← this_socket self;
  match _pipe c with
  | None => ret tt
  | Some pipe =>
      socket_path self;;
      log Debug "Disconnecting socket";;
      try_except_else (sys (transport_close pipe)) is_Exception
        (λ _, log Exception "Socket close failed")
        (λ _, log Debug "Socket disconnected successfully";; set_pipe self None)
  end.

(** [ConnectSocket.__enter__] and [ConnectSocket.__exit__] *)
Definition ConnectSocket_enter (g : ConnectSocket) : M loc := ret (socket g).

Definition ConnectSocket_exit (g : ConnectSocket) : M unit := disconnect (socket g).

(** [SocketClient.__enter__] and [SocketClient.__exit__] *)
Definition SocketClient_enter (self : loc) : M loc :=
  connect self;;
  ret self.

Definition SocketClient_exit (self : loc) : M unit := disconnect self.

(** ** [SocketClient.send] *)

Definition ENOTCONN : Z := 107.

(** [str.encode('utf-8')], on a string given by its code points.  A
    surrogate has no encoding: [UnicodeEncodeError], a [ValueError]. *)
Definition encode_char (cp : Z) : option (list Z) :=
  if (cp <? 0) || (1114111 <? cp) then None
  else if cp <? 128 then Some [cp]
  else if cp <? 2048 then
    Some [Z.lor 192 (Z.shiftr cp 6); Z.lor 128 (Z.land cp 63)]
  else if (55296 <=? cp) && (cp <=? 57343) then None
  else if cp <? 65536 then
    Some [Z.lor 224 (Z.shiftr cp 12); Z.lor 128 (Z.land (Z.shiftr cp 6) 63);
          Z.lor 128 (Z.land cp 63)]
  else
    Some [Z.lor 240 (Z.shiftr cp 18); Z.lor 128 (Z.land (Z.shiftr cp 12) 63);
          Z.lor 128 (Z.land (Z.shiftr cp 6) 63); Z.lor 128 (Z.land cp 63)].

Fixpoint encode_utf8 (line : list Z) : option (list Z) :=
  match line with
  | [] => Some []
  | cp :: rest =>
      match encode_char cp, encode_utf8 rest with
      | Some bytes, Some data => Some (bytes ++ data)
      | _, _ => None
      end
  end.

Definition str_encode (line : list Z) : M (list Z) :=
  match encode_utf8 line with
  | Some data => ret data
  | None => raise ValueError
  end.

(** [sock.send(data)] and [pipe.write(data)]: the number of bytes taken.  A
    socket that was closed is a bad descriptor and one that is not connected
    cannot send; writing to a file object that was closed is a
    [ValueError]. *)
Definition transport_send (t : transport) (data : list Z) (w : world) : outcome Z * world :=
  match t with
  | Socket id =>
      match conns w !! id with
      | None => (Raise (OSError EBADF), w)
      | Some c =>
          match c_peer c with
          | None => (Raise (OSError ENOTCONN), w)
          | Some _ => (Return (Z.of_nat (length data)), w)
          end
      end
  | Pipe id =>
      match conns w !! id with
      | None => (Raise ValueError, w)
      | Some _ => (Return (Z.of_nat (length data)), w)
      end
  end.

(** [send].  The log calls keep their event only, so the preview of the
    line that the first of them is given (the line cut at
    [MAX_PREVIEW_LENGTH], a constant of [client.constant]) does not appear;
    and what the peer receives is not part of the operating system's state
    here: [transport_send] tells whether the transport took the data. *)
Definition send (self : loc) (line : list Z) : M unit :=
  c ← this_socket self;
  match _pipe c with
  | None => ret tt
  | Some pipe =>
      try_except_else
        (data ← str_encode line;
         socket_path self;;
         log Debug "Sending data over socket";;
         λ p, let (r, w) := transport_send pipe data (os p) in (r, with_os w p))
        is_Exception
        (λ _,
           socket_path self;;
           log Exception "Failed to send data over socket")
        (λ _,
           socket_path self;;
           log Debug "Data sent successfully")
  end.

(** ** [validate_default_path] *)

(** The methods of [str] the validator uses, for strings of ASCII
    characters (where a byte is a character): [isspace], [strip],
    [rstrip(chars)], [lower], [startswith]. *)
Definition isspace (c : ascii) : bool :=
  let n := nat_of_ascii c in
  ((9 <=? n) && (n <=? 13) || (28 <=? n) && (n <=? 32))%nat.

Fixpoint lstrip (s : string) : string :=
  match s with
  | EmptyString => EmptyString
  | String c rest => if isspace c then lstrip rest else s
  end.

Fixpoint rstrip (chars : ascii → bool) (s : string) : string :=
  match s with
  | EmptyString => EmptyString
  | String c rest =>
      match rstrip chars rest with
      | EmptyString => if chars c then EmptyString else String c EmptyString
      | kept => String c kept
      end
  end.

Definition strip (s : string) : string := rstrip isspace (lstrip s).

Definition lower_char (c : ascii) : ascii :=
  let n := nat_of_ascii c in
  if ((65 <=? n) && (n <=? 90))%nat then ascii_of_nat (n + 32) else c.

Fixpoint lower (s : string) : string :=
  match s with
  | EmptyString => EmptyString
  | String c rest => String (lower_char c) (lower rest)
  end.

Fixpoint startswith (s prefix : string) : bool :=
  match prefix, s with
  | EmptyString, _ => true
  | String _ _, EmptyString => false
  | String a prefix', String b s' => Ascii.eqb a b && startswith s' prefix'
  end.

Definition is_backslash (c : ascii) : bool := bool_decide (c = "\"%char).

(** The validator returns nothing or raises [SocketValidateError(path)]. *)
Inductive validated :=
| Passes
| SocketValidateError (path : string).

(** The validator [attrs] runs on [default_path] (its first two arguments,
    the instance and the attribute, are not looked at).  [is_dir] stands for
    [Path(value).is_dir()]: directories are not part of [world]. *)
Definition validate_default_path (is_dir : string → world → bool)
    (value : option string) (w : world) : validated :=
  match value with
  | None => Passes
  | Some value =>
      if bool_decide (strip value = "") then SocketValidateError value
      else if windows w then
        let normalized := lower (rstrip is_backslash value) in
        if negb (bool_decide (normalized = value)) || negb (startswith normalized "\\.\pipe")
        then SocketValidateError value
        else Passes
      else if is_dir value w then SocketValidateError value
      else Passes
  end.

(** * The vocabulary of the statements *)

(** The flags [acquire] opens the lock file with, and its lock step as the
    operating system sees it. *)
Definition create_flags : Z := Z.lor (Z.lor O_RDWR O_CREAT) O_EXCL.

Definition try_lock (fd : Z) (w : world) : sysres unit * world :=
  if windows w then msvcrt_locking fd LK_NBLCK 1 w
  else fcntl_flock fd (Z.lor LOCK_EX LOCK_NB) w.

(** What an action that only talks to the operating system leaves alone. *)
Definition os_only {A} (m : M A) : Prop :=
  ∀ p r p', m p = (r, p') → p' = with_os (os p') p.

(** The state [release] has reached when it enters its [try]. *)
Definition delayed (p : process) : process :=
  with_logged (logged p ++ [(Debug, "Release lock")]) (with_os (advance 300 (os p)) p).

(** The clock, the schedule of the other processes and the platform are out
    of reach of the file operations. *)
Definition same_time (w w' : world) : Prop :=
  now w' = now w ∧ pending w' = pending w ∧ windows w' = windows w.

(** The state in which the loop of [wait] polls for the [k]-th time
    (counting from 0), if it gets that far: each round is one call of
    [exists_running] and one [sleep]. *)
Definition next_poll (self : loc) (interval : Z) (q : process) : process :=
  (sleep interval (exists_running self q).2).2.

Fixpoint poll_state (self : loc) (interval : Z) (q : process) (k : nat) : process :=
  match k with
  | O => q
  | S k' => poll_state self interval (next_poll self interval q) k'
  end.

(** What the [k]-th poll sees. *)
Definition observes (self : loc) (interval : Z) (q : process) (k : nat) : bool :=
  match (exists_running self (poll_state self interval q k)).1 with
  | Return b => b
  | Raise _ => false
  end.

(** The state [wait] enters its loop in. *)
Definition waiting (p : process) : process :=
  with_logged (logged p ++ [(Debug, "Wait for other lock to end")]) p.

(** [within timeout t]: [t] milliseconds after the start the timeout has not
    run out. *)
Definition within (timeout : option Z) (t : Z) : Prop :=
  match timeout with
  | None => True
  | Some limit => t ≤ limit
  end.

(** The first poll that falls on or after the end of the timeout. *)
Definition deadline_poll (limit interval : Z) : nat :=
  Z.to_nat ((Z.max 0 limit + interval - 1) / interval).

(** The spec's words for the base directory: the first of the given values
    that is set and not empty. *)
Definition populated (v : option string) : option string :=
  match v with
  | Some (String a s) => Some (String a s)
  | _ => None
  end.

Fixpoint first_populated (vals : list (option string)) : option string :=
  match vals with
  | [] => None
  | v :: rest =>
      match populated v with
      | Some dir => Some dir
      | None => first_populated rest
      end
  end.

(** Paths in the shape [pathlib] prints them: [absolute comps] is the
    absolute path with the components [comps], each of them [plain] (not
    empty, not ['.'], without a separator). *)
Fixpoint no_sep (s : string) : bool :=
  match s with
  | EmptyString => true
  | String c rest => negb (bool_decide (c = "/"%char)) && no_sep rest
  end.

Definition plain (s : string) : bool :=
  no_sep s && negb (bool_decide (s = "")) && negb (bool_decide (s = ".")).

Definition absolute (comps : list string) : string := "/" +:+ String.concat "/" comps.

(** The [errno] with which connecting to [path] fails, if it fails. *)
Definition dial_errno (path : string) (w : world) : option Z :=
  match endpoints w !! path with
  | None => Some ENOENT
  | Some (Unavailable e) => Some e
  | Some Listening => None
  end.

Definition transport_id (t : transport) : Z :=
  match t with Socket id => id | Pipe id => id end.

(** How [acquire] can fail on a client that does not hold the lock: at the
    create-and-exclusively-open step, or at the non-blocking lock step. *)
Inductive acquire_fails (c : LockClient) (w : world) : Prop :=
| create_fails e w1 :
    os_open (lockfile c) create_flags (_mode c) w = (Err e, w1) →
    acquire_fails c w
| lock_fails fd w1 e w2 :
    os_open (lockfile c) create_flags (_mode c) w = (Ok fd, w1) →
    try_lock fd w1 = (Err e, w2) →
    acquire_fails c w.

(** The lock is there for the taking: no file at [path], a directory the
    process may write to, a file system that accepts lock requests. *)
Definition available (path : string) (w : world) : Prop :=
  path_exists path w = false ∧ dir_writable w = true ∧ lock_errno w = None.

(** Descriptor [fd] is open on the file [ino], which the process's user owns,
    and holds the exclusive lock on it. *)
Definition holds_lock (fd : Z) (ino : nat) (w : world) : Prop :=
  fds w !! fd = Some ino
  ∧ ∃ f, inodes w !! ino = Some f ∧ i_owned f = true ∧ (Desc fd, true) ∈ i_holders f.

(** Every lock a descriptor of this process holds is held through a
    descriptor that is open. *)
Definition descriptor_open (w : world) (h : owner * bool) : bool :=
  match h.1 with
  | Desc fd => bool_decide (is_Some (fds w !! fd))
  | Foreign => true
  end.

Definition locks_have_descriptors (w : world) : Prop :=
  map_Forall (λ _ f, forallb (descriptor_open w) (i_holders f) = true) (inodes w).

(** Strings of ASCII characters. *)
Fixpoint ascii_only (s : string) : bool :=
  match s with
  | EmptyString => true
  | String c rest => (nat_of_ascii c <? 128)%nat && ascii_only rest
  end.

Fixpoint blank (s : string) : bool :=
  match s with
  | EmptyString => true
  | String c rest => isspace c && blank rest
  end.

Fixpoint ends_with_backslash (s : string) : bool :=
  match s with
  | EmptyString => false
  | String c EmptyString => is_backslash c
  | String _ rest => ends_with_backslash rest
  end.

(** The lock file is in place, this client does not hold the lock, and no
    other process is going to remove the file. *)
Definition stuck (self : loc) (path : string) (q : process) : Prop :=
  windows (os q) = false
  ∧ is_locked (lock_clients q self) = false
  ∧ lockfile (lock_clients q self) = path
  ∧ is_Some (names (os q) !! path)
  ∧ ∀ t, (t, TheyUnlink path) ∉ pending (os q).

(** ** Scenarios *)

(** Concrete processes and machines on which the statements below are
    exercised. *)
Definition lock_path : string := "/tmp/5d41402abc4b2a76.lock".

(** [LockClient()]: [_mode] is [0o644], [_fd] is [None]. *)
Definition new_LockClient : LockClient :=
  {| _mode := 420; _fd := None; lockfile := lock_path |}.

(** [SocketClient(name)] *)
Definition new_SocketClient (name : string) : SocketClient :=
  {| name := name; default_path := None; _pipe := None; socket_path_cache := None |}.

(** The terminal behind the standard streams ([0o620]). *)
Definition tty : inode := {| i_mode := 400; i_owned := true; i_holders := [] |}.

(** A machine just booted: the three standard streams, an empty temporary
    directory, nobody listening. *)
Definition boot (win : bool) : world :=
  {| windows := win;
     names := ∅;
     inodes := {[ 0%nat := tty ]};
     dir_writable := true;
     lock_errno := None;
     fds := {[ 0 := 0%nat; 1 := 0%nat; 2 := 0%nat ]};
     now := 0;
     pending := [];
     environ := ∅;
     endpoints := ∅;
     conns := ∅ |}.

Definition start (w : world) : process :=
  {| lock_clients := λ _, new_LockClient;
     socket_clients := λ _, new_SocketClient "app";
     os := w;
     logged := [] |}.

(** Client 0 holds the lock. *)
Definition holding (win : bool) : process := (acquire 0%nat (start (boot win))).2.

(** Client 0 holds the lock, but its descriptor was closed behind its back. *)
Definition stale : process := (sys (os_close 3) (holding false)).2.

(** A file system that does not support locks. *)
Definition lockless : world :=
  {| windows := false; names := ∅; inodes := {[ 0%nat := tty ]}; dir_writable := true;
     lock_errno := Some ENOLCK; fds := {[ 0 := 0%nat; 1 := 0%nat; 2 := 0%nat ]};
     now := 0; pending := []; environ := ∅; endpoints := ∅; conns := ∅ |}.

(** Another instance holds the lock and will release it (unlock, then
    remove the file) 250 ms from now. *)
Definition contended (win : bool) : world :=
  set_clock 0 [(250, TheyUnlock lock_path); (250, TheyUnlink lock_path)]
    (apply_event (apply_event (boot win) (TheyCreate lock_path 420)) (TheyLock lock_path)).

(** The same, but the other instance releases the lock 260 ms from now. *)
Definition released_late : world :=
  set_clock 0 [(260, TheyUnlock lock_path); (260, TheyUnlink lock_path)]
    (apply_event (apply_event (boot true) (TheyCreate lock_path 420)) (TheyLock lock_path)).

(** Client 0 holds the lock on a file whose permission bits it may not
    change (a file system that maps every file to another owner). *)
Definition foreign_owned : process :=
  {| lock_clients := λ _, {| _mode := 420; _fd := Some 3; lockfile := lock_path |};
     socket_clients := λ _, new_SocketClient "app";
     os := {| windows := false;
              names := {[ lock_path := 1%nat ]};
              inodes := {[ 0%nat := tty;
                           1%nat := {| i_mode := 420; i_owned := false;
                                       i_holders := [(Desc 3, true)] |} ]};
              dir_writable := true; lock_errno := None;
              fds := {[ 0 := 0%nat; 1 := 0%nat; 2 := 0%nat; 3 := 1%nat ]};
              now := 0; pending := []; environ := ∅; endpoints := ∅; conns := ∅ |};
     logged := [] |}.

(** A lock file left behind by an instance that died: present, unlocked. *)
Definition orphaned (win : bool) : world :=
  apply_event (boot win) (TheyCreate lock_path 420).

(** POSIX with only the home directory set. *)
Definition at_home (eps : list (string * endpoint)) : world :=
  {| windows := false; names := ∅; inodes := {[ 0%nat := tty ]}; dir_writable := true;
     lock_errno := None; fds := {[ 0 := 0%nat; 1 := 0%nat; 2 := 0%nat ]};
     now := 0; pending := []; environ := {[ "HOME" := "/home/user" ]};
     endpoints := list_to_map eps; conns := ∅ |}.

(** A connected client whose pipe will report an I/O error when closed. *)
Definition broken_pipe : process :=
  {| lock_clients := λ _, new_LockClient;
     socket_clients := λ _,
       {| name := "app"; default_path := None; _pipe := Some (Pipe 3);
          socket_path_cache := Some "\\.\pipe\app" |};
     os := set_conns {[ 3 := {| c_peer := Some "\\.\pipe\app"; c_close_errno := Some EIO |} ]}
             (boot true);
     logged := [] |}.

(** The same machine with a directory the process may not write to. *)
Definition read_only (w : world) : world :=
  {| windows := windows w; names := names w; inodes := inodes w; dir_writable := false;
     lock_errno := lock_errno w; fds := fds w; now := now w; pending := pending w;
     environ := environ w; endpoints := endpoints w; conns := conns w |}.

(** Client 0 holds the lock, and the directory has been made read-only since. *)
Definition locked_out : process := with_os (read_only (os (holding false))) (holding false).

(** A file system on which [flock] is not implemented. *)
Definition unsupported : world :=
  {| windows := false; names := ∅; inodes := {[ 0%nat := tty ]}; dir_writable := true;
     lock_errno := Some ENOSYS; fds := {[ 0 := 0%nat; 1 := 0%nat; 2 := 0%nat ]};
     now := 0; pending := []; environ := ∅; endpoints := ∅; conns := ∅ |}.

(** Somebody listens at the address of client 0, and client 0 has connected. *)
Definition listening : world := at_home [("/home/user/.app", Listening)].

Definition connected : process := (connect 0%nat (start listening)).2.

(** * Properties *)

(** ** The operating system calls *)

Ltac case_sys :=
  repeat match goal with
  | H : context [match ?x with _ => _ end] |- _ =>
      let E := fresh "E" in destruct x eqn:E; try discriminate
  | H : context [if ?b then _ else _] |- _ =>
      let E := fresh "E" in destruct b eqn:E; try discriminate
  end.

Section os_calls.
Implicit Types (w : world) (fd : Z) (path : string).

(** A call that fails has changed nothing. *)
Lemma os_open_Err path flags mode w e w' :
  os_open path flags mode w = (Err e, w') → w' = w.
Proof. unfold os_open. intros H. case_sys; congruence. Qed.

Lemma fcntl_flock_Err fd op w e w' :
  fcntl_flock fd op w = (Err e, w') → w' = w.
Proof. unfold fcntl_flock. intros H. case_sys; congruence. Qed.

Lemma msvcrt_locking_Err fd mode n w e w' :
  msvcrt_locking fd mode n w = (Err e, w') → w' = w.
Proof. unfold msvcrt_locking. intros H. case_sys; congruence. Qed.

Lemma os_unlink_Err path w e w' :
  os_unlink path w = (Err e, w') → w' = w.
Proof. unfold os_unlink. intros H. case_sys; congruence. Qed.

(** What a successful [os.open] leaves behind: a descriptor on the file the
    path names. *)
Lemma os_open_Ok path flags mode w fd w' :
  os_open path flags mode w = (Ok fd, w') →
  ∃ ino, fds w' !! fd = Some ino ∧ names w' !! path = Some ino
         ∧ windows w' = windows w ∧ now w' = now w ∧ pending w' = pending w.
Proof.
  unfold os_open. intros H. case_sys; simplify_eq; simpl; eexists;
    rewrite ?lookup_insert_eq; eauto.
Qed.

(** With [O_CREAT | O_EXCL] it succeeds only where there was no file. *)
Lemma os_open_excl_Ok path flags mode w fd w' :
  has_flag O_CREAT flags && has_flag O_EXCL flags = true →
  os_open path flags mode w = (Ok fd, w') →
  names w !! path = None.
Proof. unfold os_open. intros Hf H. rewrite Hf in H. case_sys; done. Qed.

Lemma os_open_excl_exists path flags mode w :
  has_flag O_CREAT flags && has_flag O_EXCL flags = true →
  path_exists path w = true →
  os_open path flags mode w = (Err EEXIST, w).
Proof.
  unfold os_open, path_exists. intros Hf H%bool_decide_eq_true.
  destruct H as [ino ->]. by rewrite Hf.
Qed.

(** Closing an open descriptor succeeds and touches no name. *)
Lemma os_close_Ok fd ino w :
  fds w !! fd = Some ino →
  ∃ w', os_close fd w = (Ok tt, w') ∧ fds w' = delete fd (fds w)
        ∧ names w' = names w ∧ windows w' = windows w ∧ now w' = now w
        ∧ pending w' = pending w.
Proof.
  unfold os_close. intros ->. destruct (inodes w !! ino); eexists; split_and!; done.
Qed.

Lemma os_close_Ok_inv fd w r w' :
  os_close fd w = (r, w') →
  names w' = names w ∧ windows w' = windows w ∧ now w' = now w ∧ pending w' = pending w.
Proof. unfold os_close. intros H. case_sys; simplify_eq; done. Qed.

(** Locking, in either dialect, changes neither names nor descriptors. *)
Lemma fcntl_flock_frame fd op w r w' :
  fcntl_flock fd op w = (r, w') →
  names w' = names w ∧ fds w' = fds w ∧ windows w' = windows w ∧ now w' = now w
  ∧ pending w' = pending w ∧ lock_errno w' = lock_errno w.
Proof. unfold fcntl_flock. intros H. case_sys; simplify_eq; done. Qed.

Lemma msvcrt_locking_frame fd mode n w r w' :
  msvcrt_locking fd mode n w = (r, w') →
  names w' = names w ∧ fds w' = fds w ∧ windows w' = windows w ∧ now w' = now w
  ∧ pending w' = pending w ∧ lock_errno w' = lock_errno w.
Proof. unfold msvcrt_locking. intros H. case_sys; simplify_eq; done. Qed.

Lemma os_fchmod_frame fd mode w r w' :
  os_fchmod fd mode w = (r, w') →
  names w' = names w ∧ fds w' = fds w ∧ windows w' = windows w ∧ now w' = now w
  ∧ pending w' = pending w.
Proof. unfold os_fchmod. intros H. case_sys; simplify_eq; done. Qed.

(** After [os.unlink] returned, or failed because there was nothing to
    remove, the path names no file. *)
Lemma os_unlink_gone path w r w' :
  os_unlink path w = (r, w') →
  r = Ok tt ∨ r = Err ENOENT →
  names w' !! path = None.
Proof.
  unfold os_unlink. intros H Hr.
  destruct (names w !! path) eqn:En; [destruct (dir_writable w) eqn:Ed|]; simplify_eq; simpl.
  - apply lookup_delete_eq.
  - destruct Hr as [?|?]; simplify_eq.
  - done.
Qed.
End os_calls.

(** Paths, fresh descriptors and files, and whose locks a descriptor leaves
    alone. *)
Lemma path_exists_false path w : path_exists path w = false ↔ names w !! path = None.
Proof.
  unfold path_exists. rewrite bool_decide_eq_false, eq_None_not_Some. done.
Qed.

Lemma path_exists_true path w : path_exists path w = true ↔ is_Some (names w !! path).
Proof. unfold path_exists. by rewrite bool_decide_eq_true. Qed.

Lemma fresh_fd w : fds w !! fresh (dom (fds w)) = None.
Proof. apply not_elem_of_dom, is_fresh. Qed.

Lemma fresh_inode w : inodes w !! fresh (dom (inodes w)) = None.
Proof. apply not_elem_of_dom, is_fresh. Qed.

Lemma others_nil fd : others fd [] = [].
Proof. done. Qed.

Lemma others_own fd b : others fd [(Desc fd, b)] = [].
Proof. unfold others. rewrite filter_cons_False; [done|]. simpl. by intros H. Qed.

(** ** [acquire] *)

(** Unfolds the combinators of the monad, so that a method can be run
    against what is known of the operating system's answers. *)
Ltac unfold_M :=
  unfold Path_unlink, suppress, try_except, try_except_else, bind, ret, raise, ask,
    sys, log, sleep, monotonic, windows_check, this_lock, set_fd, getenv in *.

Lemma try_lock_Err fd w e w' : try_lock fd w = (Err e, w') → w' = w.
Proof.
  unfold try_lock. destruct (windows w); eauto using msvcrt_locking_Err, fcntl_flock_Err.
Qed.

Section acquire.
Variables (self : loc) (p : process).
Let c := lock_clients p self.

Lemma acquire_held :
  is_locked c = true → acquire self p = (Return {| lock := self |}, p).
Proof. unfold acquire, c. unfold_M. simpl. by intros ->. Qed.

Lemma acquire_open_fails e w1 :
  is_locked c = false →
  os_open (lockfile c) create_flags (_mode c) (os p) = (Err e, w1) →
  ∃ p', acquire self p = (Return {| lock := self |}, p')
        ∧ is_locked (lock_clients p' self) = false
        ∧ os p' = os p.
Proof.
  intros Hc Ho. pose proof (os_open_Err _ _ _ _ _ _ Ho) as ->.
  unfold acquire. unfold_M. simpl. fold c. rewrite Hc. simpl.
  fold create_flags. rewrite Ho. simpl.
  destruct (e =? EACCES); simpl; eexists; (split; [reflexivity|]); simpl;
    rewrite fn_lookup_insert; done.
Qed.

Lemma acquire_lock_fails fd w1 e w2 :
  is_locked c = false →
  os_open (lockfile c) create_flags (_mode c) (os p) = (Ok fd, w1) →
  try_lock fd w1 = (Err e, w2) →
  ∃ p', acquire self p = (Return {| lock := self |}, p')
        ∧ is_locked (lock_clients p' self) = false
        ∧ fds (os p') !! fd = None
        ∧ names (os p') = names w1.
Proof.
  intros Hc Ho Hl. pose proof (try_lock_Err _ _ _ _ Hl) as ->.
  destruct (os_open_Ok _ _ _ _ _ _ Ho) as (ino & Hfd & Hnm & _).
  destruct (os_close_Ok _ _ _ Hfd) as (w3 & Hcl & Hfds & Hnames & _).
  unfold acquire. unfold_M. simpl. fold c. rewrite Hc. simpl.
  fold create_flags. rewrite Ho. simpl.
  unfold try_lock in Hl.
  destruct (windows w1); simpl; rewrite Hl; simpl;
    (destruct (negb (e =? EACCES)); [|destruct (e =? ENOSYS)]); simpl;
    rewrite Hcl; simpl; eexists; (split; [reflexivity|]); simpl;
    rewrite fn_lookup_insert, Hfds, lookup_delete_eq; done.
Qed.
End acquire.

(** ** [release] *)

Lemma with_os_id p : with_os (os p) p = p.
Proof. by destruct p. Qed.

Lemma sys_os_only {A} (call : world → sysres A * world) : os_only (sys call).
Proof.
  intros p r p'. unfold sys. destruct (call (os p)) as [[a|n] w]; intros; simplify_eq; done.
Qed.

Lemma unlock_and_close_os_only c fd : os_only (unlock_and_close c fd).
Proof.
  intros p r p'. unfold unlock_and_close. unfold_M. simpl. intros H.
  repeat case_match; simplify_eq; done.
Qed.

Lemma release_delay_eq p : release_delay p = (Return tt, delayed p).
Proof. reflexivity. Qed.

(** The last statement of [release]: it raises unless the file is gone
    afterwards. *)
Lemma unlink_lockfile path p r p' :
  suppress is_FileNotFoundError (Path_unlink path true) p = (r, p') →
  p' = with_os (os p') p ∧ (r = Return tt → names (os p') !! path = None).
Proof.
  unfold_M.
  destruct (os_unlink path (os p)) as [[[]|n] w] eqn:E; simpl.
  - intros; simplify_eq. split; [done|]. intros _. simpl.
    eapply os_unlink_gone; eauto.
  - unfold is_FileNotFoundError. destruct (n =? ENOENT) eqn:En; simpl.
    + intros; simplify_eq. split; [done|]. intros _. simpl.
      apply Z.eqb_eq in En as ->. eapply os_unlink_gone; eauto.
    + rewrite En. intros; simplify_eq. split; [done|]. done.
Qed.

Section release.
Variables (self : loc) (p : process).
Let c := lock_clients p self.

Lemma release_not_held :
  _fd c = None → release self p = (Return tt, p).
Proof. unfold release, c. unfold_M. simpl. by intros ->. Qed.

(** [release] on a held client: the delay, the guarded sequence, its
    [except] or [else] suite, and the removal of the file. *)
Lemma release_held_eq fd :
  _fd c = Some fd →
  release self p =
    let (r1, q) := unlock_and_close c fd (delayed p) in
    suppress is_FileNotFoundError (Path_unlink (lockfile c) true)
      match r1 with
      | Return _ =>
          (set_fd self None
             (with_logged (logged q ++ [(Debug, "Lock release successfully")]) q)).2
      | Raise _ => with_logged (logged q ++ [(Exception, "Lock release failed")]) q
      end.
Proof.
  intros Hfd. unfold release. unfold bind at 1. unfold this_lock, ask. fold c.
  rewrite Hfd. unfold bind at 1. rewrite release_delay_eq.
  unfold bind at 1. unfold try_except_else.
  destruct (unlock_and_close c fd (delayed p)) as [[[]|e] q]; done.
Qed.

Lemma release_sequence_ok fd p1 r p' :
  _fd c = Some fd →
  unlock_and_close c fd (delayed p) = (Return tt, p1) →
  release self p = (r, p') →
  is_locked (lock_clients p' self) = false
  ∧ (r = Return tt → names (os p') !! lockfile c = None).
Proof.
  intros Hfd Hseq. rewrite (release_held_eq _ Hfd), Hseq. intros E.
  destruct (unlink_lockfile _ _ _ _ E) as [Hp' Hgone].
  split; [|done]. rewrite Hp'. simpl. by rewrite fn_lookup_insert.
Qed.

Lemma release_sequence_fails fd e p1 :
  _fd c = Some fd →
  unlock_and_close c fd (delayed p) = (Raise e, p1) →
  is_locked (lock_clients (release self p).2 self) = true
  ∧ logged (release self p).2
    = logged p ++ [(Debug, "Release lock"); (Exception, "Lock release failed")].
Proof.
  intros Hfd Hseq. pose proof (unlock_and_close_os_only _ _ _ _ _ Hseq) as Hp1.
  rewrite (release_held_eq _ Hfd), Hseq.
  destruct (suppress _ _ _) as [r p'] eqn:E.
  destruct (unlink_lockfile _ _ _ _ E) as [Hp' _].
  simpl. rewrite Hp', Hp1. simpl. unfold is_locked. fold c. rewrite Hfd.
  split; [done|]. by rewrite <- app_assoc.
Qed.
End release.

(** ** [exists_running] *)

Lemma same_time_refl w : same_time w w.
Proof. done. Qed.

Lemma same_time_trans w1 w2 w3 : same_time w1 w2 → same_time w2 w3 → same_time w1 w3.
Proof. unfold same_time. intros (?&?&?) (?&?&?). split_and!; congruence. Qed.

Lemma os_open_same_time path flags mode w r w' :
  os_open path flags mode w = (r, w') → same_time w w'.
Proof.
  destruct r as [fd|e]; intros H.
  - apply os_open_Ok in H as (?&?&?&?&?&?). done.
  - apply os_open_Err in H as ->. done.
Qed.

Lemma os_close_same_time fd w r w' : os_close fd w = (r, w') → same_time w w'.
Proof. intros H. apply os_close_Ok_inv in H as (?&?&?&?). done. Qed.

Lemma fcntl_flock_same_time fd op w r w' : fcntl_flock fd op w = (r, w') → same_time w w'.
Proof. intros H. apply fcntl_flock_frame in H as (?&?&?&?&?&?). done. Qed.

Lemma msvcrt_locking_same_time fd mode n w r w' :
  msvcrt_locking fd mode n w = (r, w') → same_time w w'.
Proof. intros H. apply msvcrt_locking_frame in H as (?&?&?&?&?&?). done. Qed.

(** The probe: only the operating system is involved, the descriptor stays
    open, and whatever it raises is an [OSError]. *)
Lemma probe_lock_frame fd q r q' :
  probe_lock fd q = (r, q') →
  q' = with_os (os q') q ∧ fds (os q') = fds (os q) ∧ same_time (os q) (os q')
  ∧ match r with Return _ => True | Raise e => is_OSError e = true end.
Proof.
  unfold probe_lock. unfold_M. simpl. intros H.
  repeat case_match; simplify_eq; simpl;
    repeat match goal with
    | H : fcntl_flock _ _ _ = _ |- _ =>
        let T := fresh in
        pose proof (fcntl_flock_same_time _ _ _ _ _ H) as T;
        apply fcntl_flock_frame in H as (?&?&?&?&?&?)
    | H : msvcrt_locking _ _ _ _ = _ |- _ =>
        let T := fresh in
        pose proof (msvcrt_locking_same_time _ _ _ _ _ _ H) as T;
        apply msvcrt_locking_frame in H as (?&?&?&?&?&?)
    end;
    simpl in *; split_and!; try done; try congruence;
    unfold same_time in *; simpl in *; split_and!; intuition congruence.
Qed.

Section exists_running.
Variables (self : loc) (p : process).
Let c := lock_clients p self.

Lemma exists_running_held :
  is_locked c = true → exists_running self p = (Return false, p).
Proof. unfold exists_running. unfold_M. simpl. fold c. by intros ->. Qed.

Lemma exists_running_no_file :
  path_exists (lockfile c) (os p) = false → exists_running self p = (Return false, p).
Proof.
  unfold exists_running. unfold_M. simpl. fold c. intros ->.
  by rewrite orb_true_r.
Qed.

(** Otherwise the answer is the failure of the probe: [open], the lock and
    unlock calls, and the closing of the file. *)
Lemma exists_running_probe :
  is_locked c = false →
  path_exists (lockfile c) (os p) = true →
  ∃ b p', exists_running self p = (Return b, p')
    ∧ p' = with_os (os p') p
    ∧ same_time (os p) (os p')
    ∧ (b = false ↔
         ∃ fd w1 q, os_open (lockfile c) O_RDWR 438 (os p) = (Ok fd, w1)
                    ∧ probe_lock fd (with_os w1 p) = (Return tt, q)).
Proof.
  intros Hc Hex. unfold exists_running. unfold bind at 1. unfold this_lock, ask. fold c.
  unfold bind at 1. rewrite Hc, Hex. simpl.
  unfold try_except, try_except_else, with_open. unfold bind at 1. unfold bind at 1.
  unfold sys at 1.
  destruct (os_open (lockfile c) O_RDWR 438 (os p)) as [[fd|e] w1] eqn:Ho.
  - pose proof (os_open_same_time _ _ _ _ _ _ Ho) as Ht1.
    destruct (os_open_Ok _ _ _ _ _ _ Ho) as (ino & Hfd & _).
    unfold closing.
    destruct (probe_lock fd (with_os w1 p)) as [[[]|e] q] eqn:Hp;
      destruct (probe_lock_frame _ _ _ _ Hp) as (Hq & Hfds & Ht2 & He); simpl in *.
    + rewrite <- Hfds in Hfd. destruct (os_close_Ok _ _ _ Hfd) as (w3 & Hcl & _).
      pose proof (os_close_same_time _ _ _ _ Hcl) as Ht3.
      unfold bind, sys, ret. rewrite Hcl. simpl. eexists _, _. split; [done|].
      split_and!; simpl.
      * by rewrite Hq.
      * apply (same_time_trans _ w1); [done|]. by apply (same_time_trans _ (os q)).
      * split; [|done]. intros _. eauto.
    + assert (∃ b p', closing fd (probe_lock fd) (with_os w1 p) = (Raise b, p')
                ∧ is_OSError b = true ∧ p' = with_os (os p') p ∧ same_time (os q) (os p'))
        as (e' & p' & Hcl & He' & Hp' & Ht3).
      { unfold closing. rewrite Hp. unfold bind, sys, raise.
        destruct (os_close fd (os q)) as [[[]|n] w3] eqn:Hcl;
          pose proof (os_close_same_time _ _ _ _ Hcl) as Ht3;
          eexists _, _; (split; [done|]); simpl; rewrite Hq; done. }
      unfold closing in Hcl. rewrite Hp in Hcl. rewrite Hcl. simpl. rewrite He'.
      eexists _, _. split; [done|]. split_and!; [done| |].
      * apply (same_time_trans _ w1); [done|]. by apply (same_time_trans _ (os q)).
      * split; [done|]. intros (?&?&?&[= <- <-]&?). congruence.
  - pose proof (os_open_Err _ _ _ _ _ _ Ho) as ->. simpl.
    eexists _, _. split; [done|]. split_and!; simpl; try done.
    split; [done|]. intros (?&?&?&?&?); simplify_eq.
Qed.

(** In every case it returns, and leaves the objects, the log and the
    clock as they were. *)
Lemma exists_running_frame :
  ∃ b p', exists_running self p = (Return b, p')
    ∧ p' = with_os (os p') p ∧ same_time (os p) (os p').
Proof.
  destruct (is_locked c) eqn:Hc.
  { eexists _, _. split; [by apply exists_running_held|].
    by rewrite with_os_id. }
  destruct (path_exists (lockfile c) (os p)) eqn:Hex.
  - destruct (exists_running_probe Hc Hex) as (b & p' & ? & ? & ? & _). eauto.
  - eexists _, _. split; [by apply exists_running_no_file|].
    by rewrite with_os_id.
Qed.
End exists_running.

(** On Windows the probe asks for a lock: what [exists_running] answers,
    read off the file. *)
Lemma exists_running_windows_answer self p ino f :
  windows (os p) = true →
  is_locked (lock_clients p self) = false →
  names (os p) !! lockfile (lock_clients p self) = Some ino →
  inodes (os p) !! ino = Some f →
  (exists_running self p).1
  = Return (negb (may_open O_RDWR f && bool_decide (lock_errno (os p) = None)
                  && bool_decide (i_holders f = []))).
Proof.
  intros Hw Hc Hnm Hf.
  assert (path_exists (lockfile (lock_clients p self)) (os p) = true) as Hex.
  { apply path_exists_true. rewrite Hnm. eauto. }
  unfold exists_running, with_open, closing, probe_lock. unfold_M. simpl.
  rewrite Hc, Hex. simpl. unfold os_open. rewrite Hnm, Hf.
  change (has_flag O_CREAT O_RDWR) with false. simpl.
  destruct (may_open O_RDWR f); simpl; [|done].
  rewrite Hw. simpl. unfold msvcrt_locking at 1. simpl. rewrite lookup_insert_eq, Hf. simpl.
  destruct (lock_errno (os p)) as [e|] eqn:He; simpl.
  { unfold os_close. simpl. rewrite lookup_insert_eq, Hf. done. }
  destruct (i_holders f) as [|h hs] eqn:Hh; simpl.
  - unfold msvcrt_locking. simpl. rewrite lookup_insert_eq. simpl.
    rewrite lookup_insert_eq. simpl.
    rewrite bool_decide_eq_true_2 by (apply list_elem_of_singleton; done). simpl.
    unfold os_close. simpl. rewrite lookup_insert_eq. simpl. rewrite lookup_insert_eq. done.
  - unfold os_close. simpl. rewrite lookup_insert_eq, Hf. done.
Qed.

(** On Windows, on a file nobody has locked: the probe takes the lock,
    gives it back and closes its descriptor; nothing is left of it. *)
Lemma exists_running_windows_unlocked self p ino f :
  windows (os p) = true →
  is_locked (lock_clients p self) = false →
  names (os p) !! lockfile (lock_clients p self) = Some ino →
  inodes (os p) !! ino = Some f →
  may_open O_RDWR f = true →
  lock_errno (os p) = None →
  i_holders f = [] →
  exists_running self p = (Return false, p).
Proof.
  intros Hw Hc Hnm Hf Hmay He Hh.
  assert (path_exists (lockfile (lock_clients p self)) (os p) = true) as Hex.
  { apply path_exists_true. rewrite Hnm. eauto. }
  pose proof (fresh_fd (os p)) as Hnew.
  unfold exists_running, with_open, closing, probe_lock. unfold_M. simpl.
  rewrite Hc, Hex. simpl. unfold os_open. rewrite Hnm, Hf, Hmay.
  change (has_flag O_CREAT O_RDWR) with false. simpl.
  rewrite Hw. simpl. unfold msvcrt_locking at 1. simpl. rewrite lookup_insert_eq, Hf. simpl.
  rewrite He, Hh. simpl.
  unfold msvcrt_locking. simpl. rewrite lookup_insert_eq. simpl.
  rewrite lookup_insert_eq. simpl.
  rewrite bool_decide_eq_true_2 by (apply list_elem_of_singleton; done). simpl.
  unfold os_close. simpl. rewrite lookup_insert_eq. simpl. rewrite lookup_insert_eq. simpl.
  rewrite others_own, others_nil. unfold update_inode. simpl.
  rewrite !insert_insert_eq. f_equal.
  destruct p as [? ? w ?]. destruct w. simpl in *.
  rewrite delete_insert_id by done. rewrite insert_id; [done|].
  rewrite Hf. destruct f. simpl in *. by subst.
Qed.

(** ** [wait] *)

Lemma deadline_poll_spec limit interval :
  0 < interval →
  let k := Z.of_nat (deadline_poll limit interval) in
  limit ≤ k * interval ∧ k * interval < Z.max 0 limit + interval
  ∧ ∀ j, 0 ≤ j < k → j * interval < limit.
Proof.
  intros Hi. unfold deadline_poll. simpl.
  set (x := Z.max 0 limit). assert (0 ≤ x) by lia.
  assert (0 ≤ (x + interval - 1) / interval) by (apply Z.div_pos; lia).
  rewrite Z2Nat.id by done.
  pose proof (Z.mul_div_le (x + interval - 1) interval Hi).
  pose proof (Z.mod_pos_bound (x + interval - 1) interval Hi).
  pose proof (Z.div_mod (x + interval - 1) interval ltac:(lia)).
  set (k := (x + interval - 1) / interval) in *.
  split_and!; [nia | nia |]. intros j Hj. nia.
Qed.

Section wait.
Variables (self : loc) (timeout : option Z) (interval start : Z).
Hypothesis interval_nonneg : 0 ≤ interval.

Lemma sleep_interval q :
  sleep interval q = (Return tt, with_os (advance interval (os q)) q).
Proof.
  unfold sleep, time_sleep. by destruct (Z.ltb_spec interval 0); [lia|].
Qed.

Lemma next_poll_now q : now (os (next_poll self interval q)) = now (os q) + interval.
Proof.
  unfold next_poll. destruct (exists_running_frame self q) as (b & q' & -> & _ & Ht & _).
  simpl. rewrite sleep_interval. simpl. by rewrite Ht.
Qed.

(** Polls happen at fixed intervals. *)
Lemma poll_state_now k q :
  now (os (poll_state self interval q k)) = now (os q) + Z.of_nat k * interval.
Proof.
  revert q. induction k as [|k IH]; intros q; simpl poll_state; [lia|].
  rewrite IH, next_poll_now. lia.
Qed.

(** One round of the loop. *)
Lemma wait_loop_step fuel q :
  wait_loop (S fuel) self timeout interval start q =
    if observes self interval q 0 then
      if expired timeout start (now (os q))
      then (Return (Some false), (exists_running self q).2)
      else wait_loop fuel self timeout interval start (next_poll self interval q)
    else (Return (Some true), (exists_running self q).2).
Proof.
  unfold observes, next_poll. simpl poll_state.
  destruct (exists_running_frame self q) as (b & q' & E & _ & Ht & _).
  simpl. unfold bind at 1. rewrite E. simpl. destruct b; [|done].
  unfold bind at 1. unfold monotonic, ask, time_monotonic. rewrite Ht.
  destruct (expired timeout start (now (os q))); [done|].
  unfold bind. by rewrite sleep_interval.
Qed.

(** The loop up to its [k]-th poll, while every poll before it saw the
    lock taken and the timeout had not run out. *)
Lemma wait_loop_run k : ∀ fuel q,
  (k < fuel)%nat →
  (∀ j, (j < k)%nat →
        observes self interval q j = true
        ∧ expired timeout start (now (os q) + Z.of_nat j * interval) = false) →
  wait_loop fuel self timeout interval start q =
    if observes self interval q k then
      if expired timeout start (now (os q) + Z.of_nat k * interval)
      then (Return (Some false), (exists_running self (poll_state self interval q k)).2)
      else wait_loop (fuel - S k) self timeout interval start
             (poll_state self interval q (S k))
    else (Return (Some true), (exists_running self (poll_state self interval q k)).2).
Proof.
  induction k as [|k IH]; intros fuel q Hfuel Hbefore;
    (destruct fuel as [|fuel]; [lia|]); rewrite wait_loop_step.
  - simpl poll_state. rewrite Z.mul_0_l, Z.add_0_r.
    by replace (S fuel - 1)%nat with fuel by lia.
  - destruct (Hbefore 0%nat ltac:(lia)) as [-> Hexp].
    rewrite Z.mul_0_l, Z.add_0_r in Hexp. rewrite Hexp.
    rewrite IH; [|lia|].
    + unfold observes. simpl poll_state. rewrite next_poll_now.
      replace (now (os q) + interval + Z.of_nat k * interval)
        with (now (os q) + Z.of_nat (S k) * interval) by lia.
      done.
    + intros j Hj. destruct (Hbefore (S j) ltac:(lia)) as [Ho He].
      split; [done|]. rewrite next_poll_now.
      by replace (now (os q) + interval + Z.of_nat j * interval)
        with (now (os q) + Z.of_nat (S j) * interval) by lia.
Qed.

(** The state a poll leaves behind carries the time of the poll. *)
Lemma after_poll_now k q :
  now (os (exists_running self (poll_state self interval q k)).2)
  = now (os q) + Z.of_nat k * interval.
Proof.
  destruct (exists_running_frame self (poll_state self interval q k))
    as (b & q' & -> & _ & Ht & _).
  simpl. by rewrite Ht, poll_state_now.
Qed.

(** Once the timeout has run out [m] rounds from now, the loop ends within
    [m] rounds whatever the polls see. *)
Lemma wait_loop_ends m : ∀ fuel q,
  (m < fuel)%nat →
  expired timeout start (now (os q) + Z.of_nat m * interval) = true →
  ∃ b q', wait_loop fuel self timeout interval start q = (Return (Some b), q')
          ∧ now (os q) ≤ now (os q') ≤ now (os q) + Z.of_nat m * interval.
Proof.
  induction m as [|m IH]; intros fuel q Hfuel Hexp;
    (destruct fuel as [|fuel]; [lia|]); rewrite wait_loop_step;
    pose proof (after_poll_now 0 q) as Hnow; simpl poll_state in Hnow;
    destruct (observes self interval q 0).
  - rewrite Z.mul_0_l, Z.add_0_r in Hexp. rewrite Hexp. eexists _, _. split; [done|]. lia.
  - eexists _, _. split; [done|]. lia.
  - destruct (expired timeout start (now (os q))).
    + eexists _, _. split; [done|]. lia.
    + destruct (IH fuel (next_poll self interval q)) as (b & q' & E & Hq'); [lia| |].
      * rewrite next_poll_now.
        by replace (now (os q) + interval + Z.of_nat m * interval)
          with (now (os q) + Z.of_nat (S m) * interval) by lia.
      * rewrite next_poll_now in Hq'. eexists _, _. split; [done|]. lia.
  - eexists _, _. split; [done|]. lia.
Qed.
End wait.

(** ** [SocketClient] *)

Ltac unfold_S :=
  unfold this_socket, set_pipe, set_socket_path_cache in *; unfold_M.

Lemma first_base_dir_spec c vars p :
  first_base_dir c vars p =
    (match first_populated ((λ var, environ (os p) !! var) <$> vars) with
     | Some dir => Return (Path_div dir ("." +:+ name c))
     | None => Raise SocketPathError
     end, p).
Proof.
  induction vars as [|var vars IH]; [done|].
  simpl. unfold bind at 1. unfold getenv, ask.
  destruct (environ (os p) !! var) as [[|a s]|]; simpl; done.
Qed.

Lemma socket_path_cached self p path :
  socket_path_cache (socket_clients p self) = Some path →
  socket_path self p = (Return path, p).
Proof. unfold socket_path. unfold_S. simpl. by intros ->. Qed.

(** Resolving the address touches neither the operating system nor the log,
    and of the client only the cache, which then holds the address. *)
Lemma socket_path_frame self p r p' :
  socket_path self p = (r, p') →
  os p' = os p ∧ logged p' = logged p ∧ lock_clients p' = lock_clients p
  ∧ _pipe (socket_clients p' self) = _pipe (socket_clients p self)
  ∧ match r with
    | Return path => socket_path_cache (socket_clients p' self) = Some path
    | Raise e => p' = p ∧ e = SocketPathError
    end.
Proof.
  unfold socket_path, socket_path_body. unfold bind at 1. unfold this_socket at 1, ask.
  destruct (socket_path_cache (socket_clients p self)) as [path|] eqn:Ec.
  { unfold ret. intros ?; simplify_eq. done. }
  unfold bind at 1.
  assert (∀ (m : M string) r0 p0,
            m p = (r0, p0) → p0 = p ∧ (∀ e, r0 = Raise e → e = SocketPathError) →
            bind m (λ path, bind (set_socket_path_cache self (Some path)) (λ _, ret path)) p
              = (r, p') →
            os p' = os p ∧ logged p' = logged p ∧ lock_clients p' = lock_clients p
            ∧ _pipe (socket_clients p' self) = _pipe (socket_clients p self)
            ∧ match r with
              | Return path => socket_path_cache (socket_clients p' self) = Some path
              | Raise e => p' = p ∧ e = SocketPathError
              end) as Hgen.
  { intros m r0 p0 Hm [-> He]. unfold bind at 1. rewrite Hm.
    destruct r0 as [path|e]; unfold_S; simpl; intros ?; simplify_eq; simpl;
      rewrite ?fn_lookup_insert; [done|]. by rewrite (He e eq_refl). }
  destruct (default_path (socket_clients p self)) as [[|a s]|];
    try (eapply Hgen; [reflexivity|done]);
    unfold bind at 1; unfold windows_check, ask; destruct (windows (os p));
    try (eapply Hgen; [reflexivity|done]);
    (eapply Hgen; [apply first_base_dir_spec|]); (split; [done|]);
    destruct (first_populated _); intros e [=]; done.
Qed.

Section connect.
Variables (self : loc) (p : process).
Let c := socket_clients p self.
Let guard := {| socket := self |}.

Lemma connect_connected :
  is_connect c = true → connect self p = (Return guard, p).
Proof. unfold connect. unfold_S. simpl. fold c. by intros ->. Qed.

Lemma connect_no_address e p1 :
  is_connect c = false →
  socket_path self p = (Raise e, p1) →
  connect self p = (Raise SocketPathError, p).
Proof.
  intros Hc Hs. destruct (socket_path_frame _ _ _ _ Hs) as (_&_&_&_&->&->).
  unfold connect. unfold bind at 1. unfold this_socket at 1, ask. fold c. rewrite Hc.
  simpl. unfold bind. by rewrite Hs.
Qed.

Lemma connect_fails path p1 e :
  is_connect c = false →
  socket_path self p = (Return path, p1) →
  dial_errno path (os p) = Some e →
  let absorbed := is_FileNotFoundError (OSError e) || is_ConnectionRefusedError (OSError e) in
  ∃ p', connect self p = (if absorbed then Return guard else Raise (OSError e), p')
    ∧ is_connect (socket_clients p' self) = false
    ∧ logged p'
      = logged p ++ (Debug, "Attempting to connecting socket")
                    :: (if absorbed then [(Exception, "Socket connection failed")] else []).
Proof.
  intros Hc Hs Hd. cbv zeta.
  destruct (socket_path_frame _ _ _ _ Hs) as (Hos & Hlog & _ & Hpipe & _).
  assert (_pipe (socket_clients p1 self) = None) as Hp1.
  { rewrite Hpipe. fold c. unfold is_connect in Hc. by destruct (_pipe c). }
  unfold connect. unfold bind at 1. unfold this_socket at 1, ask. fold c. rewrite Hc.
  simpl. unfold bind at 1. unfold bind at 1. rewrite Hs. unfold bind at 1.
  unfold log at 1. unfold try_except_else. unfold bind at 1. unfold windows_check, ask.
  simpl. rewrite Hos.
  destruct (is_FileNotFoundError (OSError e) || is_ConnectionRefusedError (OSError e))
    eqn:Habs.
  all: assert (dial_errno path (os p1) = Some e) as Hd1 by (by unfold dial_errno; rewrite Hos).
  all: unfold dial_errno in Hd1.
  all: destruct (windows (os p)).
  all: unfold bind at 1; unfold sys at 1; simpl.
  all: try (unfold bind at 1; unfold sys at 1; simpl; unfold socket_connect; simpl;
            rewrite lookup_insert_eq).
  all: unfold open_pipe.
  all: destruct (endpoints (os p1) !! path) as [[|n]|]; simplify_eq; simpl in *.
  all: try rewrite Habs; simpl.
  all: eexists; (split; [reflexivity|]); simpl.
  all: rewrite ?fn_lookup_insert, ?Hlog, <- ?app_assoc; simpl.
  all: unfold is_connect; rewrite ?Hp1; done.
Qed.
End connect.

Lemma fresh_conn w : conns w !! fresh (dom (conns w)) = None.
Proof. apply not_elem_of_dom, is_fresh. Qed.

Section connect_ok.
Variables (self : loc) (p : process).
Let c := socket_clients p self.

(** [connect] to an address somebody listens on. *)
Lemma connect_listening path p1 :
  is_connect c = false →
  socket_path self p = (Return path, p1) →
  endpoints (os p) !! path = Some Listening →
  ∃ p', connect self p = (Return {| socket := self |}, p')
    ∧ _pipe (socket_clients p' self)
      = Some (if windows (os p) then Pipe (fresh (dom (conns (os p))))
              else Socket (fresh (dom (conns (os p)))))
    ∧ socket_path_cache (socket_clients p' self) = Some path
    ∧ os p' = set_conns (<[fresh (dom (conns (os p)))
                           := {| c_peer := Some path; c_close_errno := None |}]>
                           (conns (os p))) (os p)
    ∧ lock_clients p' = lock_clients p
    ∧ logged p' = logged p ++ [(Debug, "Attempting to connecting socket");
                               (Debug, "Socket connection established")].
Proof.
  intros Hc Hs He.
  destruct (socket_path_frame _ _ _ _ Hs) as (Hos & Hlog & Hlc & Hpipe & Hcache).
  unfold connect. unfold bind at 1. unfold this_socket at 1, ask. fold c. rewrite Hc.
  simpl. unfold bind at 1. unfold bind at 1. rewrite Hs. unfold bind at 1.
  unfold log at 1. unfold try_except_else. unfold bind at 1. unfold windows_check, ask.
  simpl. rewrite Hos.
  destruct (windows (os p)).
  - unfold bind at 1. unfold sys at 1. simpl. unfold open_pipe. rewrite Hos, He. simpl.
    unfold set_pipe, log. simpl.
    eexists. split; [reflexivity|]. simpl.
    rewrite fn_lookup_insert, Hlog, <- app_assoc. simpl. done.
  - unfold bind at 1. unfold sys at 1. simpl.
    unfold bind at 1. unfold sys at 1. simpl. unfold socket_connect. simpl.
    rewrite lookup_insert_eq, Hos, He. simpl.
    unfold set_pipe, log. simpl.
    eexists. split; [reflexivity|]. simpl.
    rewrite fn_lookup_insert, Hlog, <- app_assoc, insert_insert_eq. simpl. done.
Qed.
End connect_ok.

(** A client that [connect] connected knows its address. *)
Lemma connect_caches_address self p0 guard p :
  is_connect (socket_clients p0 self) = false →
  connect self p0 = (Return guard, p) →
  is_connect (socket_clients p self) = true →
  ∃ path, socket_path self p = (Return path, p).
Proof.
  intros Hc E Hconn.
  destruct (socket_path self p0) as [[path|e] p1] eqn:Hs.
  2:{ rewrite (connect_no_address self p0 e p1 Hc Hs) in E. done. }
  exists path. apply socket_path_cached.
  destruct (dial_errno path (os p0)) as [e|] eqn:Hd.
  - destruct (connect_fails self p0 path p1 e Hc Hs Hd) as (p' & E' & Hn & _).
    rewrite E in E'. simplify_eq. congruence.
  - assert (endpoints (os p0) !! path = Some Listening) as He.
    { unfold dial_errno in Hd. by destruct (endpoints (os p0) !! path) as [[]|]. }
    destruct (connect_listening self p0 path p1 Hc Hs He) as (p' & E' & _ & Hca & _).
    rewrite E in E'. by simplify_eq.
Qed.

Lemma transport_close_gone t w r w' :
  transport_close t w = (r, w') → conns w' !! transport_id t = None.
Proof.
  unfold transport_close, transport_id. intros H.
  destruct t; repeat case_match; simplify_eq; simpl; rewrite ?lookup_delete_eq; done.
Qed.

Section disconnect.
Variables (self : loc) (p : process).
Let c := socket_clients p self.

Lemma disconnect_not_connected :
  _pipe c = None → disconnect self p = (Return tt, p).
Proof. unfold disconnect. unfold_S. simpl. fold c. by intros ->. Qed.

Lemma disconnect_connected pipe path p1 :
  _pipe c = Some pipe →
  socket_path self p = (Return path, p1) →
  ∃ p', disconnect self p = (Return tt, p')
    ∧ os p' = (transport_close pipe (os p)).2
    ∧ match (transport_close pipe (os p)).1 with
      | Ok _ =>
          is_connect (socket_clients p' self) = false
          ∧ logged p'
            = logged p ++ [(Debug, "Disconnecting socket");
                           (Debug, "Socket disconnected successfully")]
      | Err _ =>
          is_connect (socket_clients p' self) = true
          ∧ logged p'
            = logged p ++ [(Debug, "Disconnecting socket");
                           (Exception, "Socket close failed")]
      end.
Proof.
  intros Hc Hs. destruct (socket_path_frame _ _ _ _ Hs) as (Hos & Hlog & _ & Hpipe & _).
  fold c in Hpipe. rewrite Hc in Hpipe.
  unfold disconnect. unfold bind at 1. unfold this_socket at 1, ask. fold c. rewrite Hc.
  unfold bind at 1. rewrite Hs. unfold bind at 1. unfold log at 1.
  unfold try_except_else. unfold sys at 1. simpl. rewrite Hos.
  destruct (transport_close pipe (os p)) as [[[]|n] w']; simpl;
    eexists; (split; [reflexivity|]); simpl;
    rewrite ?fn_lookup_insert, ?Hlog, <- ?app_assoc; simpl;
    unfold is_connect; rewrite ?Hpipe; done.
Qed.
End disconnect.

(** ** Paths *)

Lemma string_app_cons c s t : String c s +:+ t = String c (s +:+ t).
Proof. reflexivity. Qed.

Lemma string_app_nil_l t : "" +:+ t = t.
Proof. reflexivity. Qed.

Lemma string_app_nil_r s : s +:+ "" = s.
Proof. induction s as [|c s IH]; [done|]. by rewrite string_app_cons, IH. Qed.

Lemma string_app_assoc s t u : (s +:+ t) +:+ u = s +:+ t +:+ u.
Proof. induction s as [|c s IH]; [done|]. by rewrite !string_app_cons, IH. Qed.

Lemma split_sep_plain s cur rest :
  no_sep s = true →
  split_sep (s +:+ rest) cur = split_sep rest (cur +:+ s).
Proof.
  revert cur. induction s as [|c s IH]; intros cur Hs.
  - by rewrite string_app_nil_l, string_app_nil_r.
  - simpl in Hs. apply andb_true_iff in Hs as [Hc Hs].
    rewrite string_app_cons. simpl. apply negb_true_iff in Hc. rewrite Hc.
    rewrite IH by done. by rewrite string_app_assoc.
Qed.

Lemma split_sep_sep rest cur :
  split_sep ("/" +:+ rest) cur = cur :: split_sep rest "".
Proof. reflexivity. Qed.

Lemma split_sep_concat comps :
  comps ≠ [] → forallb no_sep comps = true →
  split_sep (String.concat "/" comps) "" = comps.
Proof.
  induction comps as [|x [|y comps] IH]; [done| |]; intros _ Hall.
  - simpl in *. rewrite <- (string_app_nil_r x) at 1. rewrite split_sep_plain; [done|].
    by apply andb_true_iff in Hall as [? _].
  - change (String.concat "/" (x :: y :: comps))
      with (x +:+ "/" +:+ String.concat "/" (y :: comps)).
    simpl in Hall. apply andb_true_iff in Hall as [Hx Hall].
    rewrite split_sep_plain by done. rewrite split_sep_sep, string_app_nil_l.
    rewrite IH; done.
Qed.

Lemma concat_snoc comps x :
  comps ≠ [] →
  String.concat "/" (comps ++ [x]) = String.concat "/" comps +:+ "/" +:+ x.
Proof.
  induction comps as [|y [|z comps] IH]; [done|done|]. intros _.
  change (String.concat "/" ((y :: z :: comps) ++ [x]))
    with (y +:+ "/" +:+ String.concat "/" ((z :: comps) ++ [x])).
  rewrite IH by done.
  change (String.concat "/" (y :: z :: comps))
    with (y +:+ "/" +:+ String.concat "/" (z :: comps)).
  by rewrite !string_app_assoc.
Qed.

Lemma ends_with_sep_app s t :
  t ≠ "" → ends_with_sep (s +:+ t) = ends_with_sep t.
Proof.
  intros Ht. induction s as [|c s IH]; [done|].
  rewrite string_app_cons. simpl. rewrite IH. destruct (s +:+ t) eqn:E; [|done].
  destruct s; [|done]. by rewrite string_app_nil_l in E.
Qed.

Lemma ends_with_sep_plain s : no_sep s = true → ends_with_sep s = false.
Proof.
  induction s as [|c s IH]; [done|]. simpl. intros [Hc Hs]%andb_true_iff.
  destruct s; [|by apply IH]. apply negb_true_iff in Hc. done.
Qed.

Lemma plain_no_sep s : plain s = true → no_sep s = true ∧ s ≠ "" ∧ s ≠ ".".
Proof.
  unfold plain. intros [[? H1%negb_true_iff]%andb_true_iff H2%negb_true_iff]%andb_true_iff.
  apply bool_decide_eq_false in H1, H2. done.
Qed.

Lemma forallb_plain_no_sep comps :
  forallb plain comps = true → forallb no_sep comps = true.
Proof.
  induction comps as [|x comps IH]; [done|]. simpl.
  intros [Hx ?]%andb_true_iff. apply plain_no_sep in Hx as [-> _]. by apply IH.
Qed.

Lemma filter_plain comps :
  forallb plain comps = true →
  filter (λ x : string, x ≠ "" ∧ x ≠ ".") comps = comps.
Proof.
  induction comps as [|x comps IH]; [done|]. simpl.
  intros [Hx ?]%andb_true_iff. apply plain_no_sep in Hx as (_ & ? & ?).
  rewrite filter_cons_True by done. by rewrite IH.
Qed.

(** For a home directory and a name in that shape, joining is writing
    [<home>/.<name>]. *)
Lemma Path_div_absolute comps name :
  comps ≠ [] → forallb plain comps = true →
  no_sep name = true → name ≠ "" →
  Path_div (absolute comps) ("." +:+ name) = absolute comps +:+ "/." +:+ name.
Proof.
  intros Hne Hall Hname Hn.
  assert (plain ("." +:+ name) = true) as Hdot.
  { unfold plain. change ("." +:+ name) with (String "." name). simpl. rewrite Hname. simpl.
    apply negb_true_iff, bool_decide_eq_false. intros [= ->]. done. }
  assert (forallb plain (comps ++ ["." +:+ name]) = true) as Hall'.
  { rewrite forallb_app. simpl. by rewrite Hall, Hdot. }
  unfold Path_div.
  assert (ends_with_sep (absolute comps) = false) as Hend.
  { unfold absolute. clear Hall'.
    destruct comps as [|x comps _] using rev_ind; [done|].
    rewrite forallb_app in Hall. apply andb_true_iff in Hall as [_ Hx].
    simpl in Hx. apply andb_true_iff in Hx as [Hx _].
    apply plain_no_sep in Hx as (Hx & Hx' & _).
    destruct comps as [|y comps].
    - simpl app. simpl String.concat. rewrite ends_with_sep_app by done.
      by apply ends_with_sep_plain.
    - rewrite concat_snoc by done. rewrite <- !string_app_assoc.
      rewrite ends_with_sep_app by done. by apply ends_with_sep_plain. }
  assert (posixpath_join (absolute comps) ("." +:+ name)
          = "/" +:+ String.concat "/" (comps ++ ["." +:+ name])) as ->.
  { unfold posixpath_join. change (starts_with_sep ("." +:+ name)) with false. cbv iota.
    rewrite Hend, orb_false_r. rewrite bool_decide_eq_false_2 by done.
    unfold absolute. rewrite concat_snoc by done. by rewrite !string_app_assoc. }
  unfold PurePosixPath_str.
  assert (∃ c rest, String.concat "/" (comps ++ ["." +:+ name]) = String c rest
                    ∧ c ≠ "/"%char) as (c & rest & Hc & Hsep).
  { destruct comps as [|x comps]; [done|].
    simpl in Hall. apply andb_true_iff in Hall as [Hx _].
    apply plain_no_sep in Hx as (Hx & Hx' & _).
    destruct x as [|c x]; [done|]. simpl in Hx. apply andb_true_iff in Hx as [Hc _].
    apply negb_true_iff, bool_decide_eq_false in Hc.
    destruct comps; simpl; eauto. }
  assert (splitroot ("/" +:+ String.concat "/" (comps ++ ["." +:+ name]))
          = ("/", String.concat "/" (comps ++ ["." +:+ name]))) as ->.
  { rewrite Hc. change ("/" +:+ String c rest) with (String "/" (String c rest)).
    simpl. repeat case_match; simplify_eq; done. }
  unfold path_tail. rewrite split_sep_concat; [|by destruct comps|by apply forallb_plain_no_sep].
  rewrite filter_plain by done. simpl.
  unfold absolute. rewrite concat_snoc by done. by rewrite !string_app_assoc.
Qed.

(** ** A remark on POSIX *)

(** [exists_running] asks [flock] for [LOCK_NB] alone, which names no lock
    type: the request is refused whatever the state of the file. *)
Lemma flock_LOCK_NB_alone fd w : ∃ e, fcntl_flock fd LOCK_NB w = (Err e, w).
Proof. unfold fcntl_flock. destruct (fds w !! fd); simpl; eauto. Qed.

Lemma probe_lock_posix fd q :
  windows (os q) = false → ∃ e, probe_lock fd q = (Raise (OSError e), q).
Proof.
  intros Hw. destruct (flock_LOCK_NB_alone fd (os q)) as [e He]. exists e.
  unfold probe_lock, bind, windows_check, ask. rewrite Hw.
  unfold sys. rewrite He. by rewrite with_os_id.
Qed.

Lemma exists_running_posix self p :
  windows (os p) = false →
  is_locked (lock_clients p self) = false →
  path_exists (lockfile (lock_clients p self)) (os p) = true →
  (exists_running self p).1 = Return true.
Proof.
  intros Hw Hc Hex.
  destruct (exists_running_probe self p Hc Hex) as (b & p' & -> & _ & _ & Hb).
  destruct b; [done|]. destruct (proj1 Hb eq_refl) as (fd & w1 & q & Ho & Hp).
  apply os_open_Ok in Ho as (_ & _ & _ & Hw1 & _).
  destruct (probe_lock_posix fd (with_os w1 p)) as [e He]; [simpl; congruence|].
  congruence.
Qed.

(** ** Failures of [acquire] the spec names *)

Lemma acquire_fails_file_exists c w :
  path_exists (lockfile c) w = true → acquire_fails c w.
Proof.
  intros H. apply (create_fails c w EEXIST w). by apply os_open_excl_exists.
Qed.

Lemma acquire_fails_permission_denied c w :
  path_exists (lockfile c) w = false → dir_writable w = false → acquire_fails c w.
Proof.
  intros H%bool_decide_eq_false Hd. apply (create_fails c w EACCES w).
  unfold os_open. destruct (names w !! lockfile c) eqn:E; [by destruct H|].
  by rewrite Hd.
Qed.

(** * The claims *)

(** C9. [acquire] on a client that already holds the lock changes nothing at
    all (the client, the operating system and the log are the ones it was
    called with), raises nothing and returns the guard. *)
Theorem acquire_idempotent self p :
  is_locked (lock_clients p self) = true →
  acquire self p = (Return {| lock := self |}, p).
Proof. apply acquire_held. Qed.

Lemma acquire_idempotent_witness :
  is_locked (lock_clients (holding false) 0%nat) = true
  ∧ acquire 0%nat (holding false) = (Return {| lock := 0%nat |}, holding false).
Proof. split; [reflexivity|]. apply acquire_idempotent. reflexivity. Defined.

(** C4. On a client that does not hold the lock, a failure of [acquire] at
    the open step or at the lock step, whatever the error, leaves the client
    not holding the lock and raises nothing; [acquire] returns the guard, and
    leaving the guard's scope calls [release] on that client. *)
Theorem acquire_failure_absorbed self p :
  is_locked (lock_clients p self) = false →
  acquire_fails (lock_clients p self) (os p) →
  ∃ p', acquire self p = (Return {| lock := self |}, p')
        ∧ is_locked (lock_clients p' self) = false
        ∧ AcquireLock_exit {| lock := self |} = release self.
Proof.
  intros Hc [e w1 Ho | fd w1 e w2 Ho Hl].
  - destruct (acquire_open_fails self p e w1 Hc Ho) as (p' & ? & ? & _). eauto.
  - destruct (acquire_lock_fails self p fd w1 e w2 Hc Ho Hl) as (p' & ? & ? & _). eauto.
Qed.

Lemma acquire_failure_absorbed_witness :
  ∃ p', acquire 1%nat (holding false) = (Return {| lock := 1%nat |}, p')
        ∧ is_locked (lock_clients p' 1%nat) = false
        ∧ AcquireLock_exit {| lock := 1%nat |} = release 1%nat.
Proof.
  apply acquire_failure_absorbed; [reflexivity|].
  apply (create_fails _ _ EEXIST (os (holding false))). vm_compute. reflexivity.
Defined.

(** C10. When [acquire] has created the lock file and the lock on the new
    descriptor then fails, the descriptor is closed and the client does not
    hold the lock, but the file that was not there before is there now. *)
Theorem failed_lock_leaves_file self p fd w1 e w2 :
  is_locked (lock_clients p self) = false →
  os_open (lockfile (lock_clients p self)) create_flags (_mode (lock_clients p self)) (os p)
    = (Ok fd, w1) →
  try_lock fd w1 = (Err e, w2) →
  ∃ p', acquire self p = (Return {| lock := self |}, p')
        ∧ is_locked (lock_clients p' self) = false
        ∧ fds (os p') !! fd = None
        ∧ path_exists (lockfile (lock_clients p self)) (os p) = false
        ∧ path_exists (lockfile (lock_clients p self)) (os p') = true.
Proof.
  intros Hc Ho Hl.
  destruct (acquire_lock_fails self p fd w1 e w2 Hc Ho Hl) as (p' & Ha & Hl' & Hfd & Hnm).
  destruct (os_open_Ok _ _ _ _ _ _ Ho) as (ino & _ & Hino & _).
  exists p'. split_and!; try done.
  - unfold path_exists.
    rewrite (os_open_excl_Ok _ create_flags _ _ _ _ eq_refl Ho).
    apply bool_decide_eq_false. by intros [? ?].
  - unfold path_exists. rewrite Hnm, Hino. by apply bool_decide_eq_true.
Qed.

Lemma failed_lock_leaves_file_witness :
  ∃ p', acquire 0%nat (start lockless) = (Return {| lock := 0%nat |}, p')
        ∧ is_locked (lock_clients p' 0%nat) = false
        ∧ fds (os p') !! 3 = None
        ∧ path_exists lock_path lockless = false
        ∧ path_exists lock_path (os p') = true.
Proof.
  apply (failed_lock_leaves_file 0%nat (start lockless) 3
           (os_open lock_path create_flags 420 lockless).2 ENOLCK
           (os_open lock_path create_flags 420 lockless).2);
    vm_compute; reflexivity.
Defined.

(** C2, as stated, fails: a client that holds the lock and whose descriptor
    has been closed meanwhile still reports [is_locked] after [release]
    (which returned normally and removed the file). *)
Lemma release_may_keep_lock :
  is_locked (lock_clients stale 0%nat) = true
  ∧ (release 0%nat stale).1 = Return tt
  ∧ is_locked (lock_clients (release 0%nat stale).2 0%nat) = true.
Proof. vm_compute. done. Qed.

(** C2, amended.  On a client that holds the lock, a [release] whose
    unlock / restore-permissions / close sequence raised nothing leaves the
    client not holding the lock; and whenever [release] itself returns
    without raising, whether that sequence raised or not, the lock file is
    gone from the disk. *)
Theorem release_clean self p fd :
  _fd (lock_clients p self) = Some fd →
  (∀ p1,
     unlock_and_close (lock_clients p self) fd (delayed p) = (Return tt, p1) →
     is_locked (lock_clients (release self p).2 self) = false)
  ∧ ((release self p).1 = Return tt →
     path_exists (lockfile (lock_clients p self)) (os (release self p).2) = false).
Proof.
  intros Hfd. destruct (release self p) as [r p'] eqn:Hrel. simpl. split.
  - intros p1 Hseq.
    by destruct (release_sequence_ok self p fd p1 r p' Hfd Hseq Hrel).
  - intros ->. rewrite (release_held_eq self p fd Hfd) in Hrel.
    destruct (unlock_and_close _ _ _) as [r1 q].
    destruct (unlink_lockfile _ _ _ _ Hrel) as [_ Hgone].
    apply path_exists_false. by apply Hgone.
Qed.

Lemma release_clean_witness :
  (is_locked (lock_clients (release 0%nat (holding false)).2 0%nat) = false
   ∧ path_exists lock_path (os (release 0%nat (holding false)).2) = false)
  ∧ path_exists lock_path (os (release 0%nat stale).2) = false.
Proof.
  destruct (release_clean 0%nat (holding false) 3) as [Hfree Hgone];
    [vm_compute; reflexivity|].
  destruct (release_clean 0%nat stale 3) as [_ Hgone'];
    [vm_compute; reflexivity|].
  split; [split|].
  - apply (Hfree (unlock_and_close new_LockClient 3 (delayed (holding false))).2).
    vm_compute; reflexivity.
  - apply Hgone. vm_compute; reflexivity.
  - apply Hgone'. vm_compute; reflexivity.
Defined.

(** C3, as stated, fails: on POSIX a [PermissionError] while the permission
    bits are restored is an error in the sequence that is not logged, and
    the release goes on to succeed. *)
Lemma release_suppresses_permission_error :
  is_locked (lock_clients foreign_owned 0%nat) = true
  ∧ (os_fchmod 3 420 (os (delayed foreign_owned))).1 = Err EPERM
  ∧ is_PermissionError (OSError EPERM) = true
  ∧ (release 0%nat foreign_owned).1 = Return tt
  ∧ logged (release 0%nat foreign_owned).2
    = [(Debug, "Release lock"); (Debug, "Lock release successfully")]
  ∧ is_locked (lock_clients (release 0%nat foreign_owned).2 0%nat) = false.
Proof. vm_compute. done. Qed.

(** C3, amended.  [release] on a client that does not hold the lock does
    nothing.  On one that does, an error that the unlock /
    restore-permissions / close sequence raises (a [PermissionError] of
    [os.fchmod] is suppressed inside the sequence and is not one) is logged
    and the client goes on reporting [is_locked]; the client stops reporting
    it only when the sequence succeeded. *)
Theorem release_failure_keeps_lock self p :
  (_fd (lock_clients p self) = None → release self p = (Return tt, p))
  ∧ (∀ fd e p1,
       _fd (lock_clients p self) = Some fd →
       unlock_and_close (lock_clients p self) fd (delayed p) = (Raise e, p1) →
       is_locked (lock_clients (release self p).2 self) = true
       ∧ logged (release self p).2
         = logged p ++ [(Debug, "Release lock"); (Exception, "Lock release failed")])
  ∧ (∀ fd,
       _fd (lock_clients p self) = Some fd →
       is_locked (lock_clients (release self p).2 self) = false →
       ∃ p1, unlock_and_close (lock_clients p self) fd (delayed p) = (Return tt, p1)).
Proof.
  split_and!.
  - apply release_not_held.
  - intros fd e p1. apply release_sequence_fails.
  - intros fd Hfd Hfree.
    destruct (unlock_and_close (lock_clients p self) fd (delayed p)) as [[[]|e] p1] eqn:E;
      [eauto|].
    destruct (release_sequence_fails self p fd e p1 Hfd E) as [Hheld _]. congruence.
Qed.

Lemma release_failure_keeps_lock_witness :
  release 1%nat (holding false) = (Return tt, holding false)
  ∧ (is_locked (lock_clients (release 0%nat stale).2 0%nat) = true
     ∧ logged (release 0%nat stale).2
       = logged stale ++ [(Debug, "Release lock"); (Exception, "Lock release failed")])
  ∧ ∃ p1, unlock_and_close (lock_clients (holding false) 0%nat) 3 (delayed (holding false))
          = (Return tt, p1).
Proof.
  split; [|split].
  - apply (proj1 (release_failure_keeps_lock 1%nat (holding false))). reflexivity.
  - apply (proj1 (proj2 (release_failure_keeps_lock 0%nat stale)) 3 (OSError EBADF)
             (unlock_and_close new_LockClient 3 (delayed stale)).2);
      vm_compute; reflexivity.
  - apply (proj2 (proj2 (release_failure_keeps_lock 0%nat (holding false))) 3);
      vm_compute; reflexivity.
Defined.

(** C1, as stated, fails: on Windows, with the lock file present and locked
    through this client's own descriptor, an attempt to lock it through a
    new descriptor fails, and [exists_running] answers [False] for the
    holder but [True] for another client object with the same lock file. *)
Lemma exists_running_depends_on_own_lock :
  path_exists lock_path (os (holding true)) = true
  ∧ (with_open lock_path O_RDWR probe_lock (holding true)).1 = Raise (OSError EACCES)
  ∧ lockfile (lock_clients (holding true) 0%nat) = lockfile (lock_clients (holding true) 1%nat)
  ∧ (exists_running 0%nat (holding true)).1 = Return false
  ∧ (exists_running 1%nat (holding true)).1 = Return true.
Proof. vm_compute. done. Qed.

(** C1, amended.  A client that itself holds the lock gets [False] without
    any probing.  For a client that does not: [False] when there is no lock
    file; otherwise the file is opened and a lock is requested without
    blocking and given back at once, and where the probe names the lock it
    asks for (on Windows, [msvcrt.locking] with [LK_NBLCK]) the answer is
    [False] exactly when the file could be opened and locked, which for a
    file that can be opened on a file system that accepts locks is when
    nobody holds a lock on it, and [True] exactly when somebody does; after
    a probe that got the lock nothing is left of it (the lock is given back,
    the descriptor closed). *)
Theorem exists_running_reflects_lock self p :
  (is_locked (lock_clients p self) = true → exists_running self p = (Return false, p))
  ∧ (is_locked (lock_clients p self) = false →
     path_exists (lockfile (lock_clients p self)) (os p) = false →
     exists_running self p = (Return false, p))
  ∧ (∀ ino f,
       is_locked (lock_clients p self) = false →
       windows (os p) = true →
       names (os p) !! lockfile (lock_clients p self) = Some ino →
       inodes (os p) !! ino = Some f →
       ((exists_running self p).1 = Return false ∨ (exists_running self p).1 = Return true)
       ∧ ((exists_running self p).1 = Return false ↔
            may_open O_RDWR f = true ∧ lock_errno (os p) = None ∧ i_holders f = [])
       ∧ (may_open O_RDWR f = true → lock_errno (os p) = None →
          ((exists_running self p).1 = Return true ↔ i_holders f ≠ []))
       ∧ (may_open O_RDWR f = true → lock_errno (os p) = None → i_holders f = [] →
          exists_running self p = (Return false, p))).
Proof.
  split_and!.
  - apply exists_running_held.
  - intros _. apply exists_running_no_file.
  - intros ino f Hc Hw Hnm Hf.
    rewrite (exists_running_windows_answer self p ino f Hw Hc Hnm Hf).
    split_and!.
    + destruct (negb _); auto.
    + destruct (may_open O_RDWR f); simpl; [|split; [done|by intros [? _]]].
      destruct (lock_errno (os p)); simpl; [split; [done|by intros (_ & ? & _)]|].
      destruct (i_holders f); simpl; [done|split; [done|by intros (_ & _ & ?)]].
    + intros -> ->. simpl. destruct (i_holders f); simpl; [split; done|split; done].
    + intros Hmay He Hh. by apply (exists_running_windows_unlocked self p ino f).
Qed.

Lemma exists_running_reflects_lock_witness :
  exists_running 0%nat (holding true) = (Return false, holding true)
  ∧ exists_running 0%nat (start (boot true)) = (Return false, start (boot true))
  ∧ ((exists_running 1%nat (holding true)).1 = Return true
     ↔ [(Desc 3, true)] ≠ @nil (owner * bool))
  ∧ exists_running 0%nat (start (orphaned true)) = (Return false, start (orphaned true)).
Proof.
  split; [|split; [|split]].
  - apply (proj1 (exists_running_reflects_lock 0%nat (holding true))). reflexivity.
  - apply (proj1 (proj2 (exists_running_reflects_lock 0%nat (start (boot true)))));
      reflexivity.
  - apply (proj2 (proj2 (exists_running_reflects_lock 1%nat (holding true))) 1%nat
             {| i_mode := 420; i_owned := true; i_holders := [(Desc 3, true)] |});
      reflexivity.
  - apply (proj2 (proj2 (exists_running_reflects_lock 0%nat (start (orphaned true)))) 1%nat
             {| i_mode := 420; i_owned := true; i_holders := [] |});
      reflexivity.
Defined.

Lemma wait_eq fuel self timeout interval p :
  wait fuel self timeout interval p
  = wait_loop fuel self timeout interval (now (os p)) (waiting p).
Proof. reflexivity. Qed.

Lemma expired_after timeout t d :
  expired timeout t (t + d) = match timeout with None => false | Some limit => limit <=? d end.
Proof. destruct timeout; simpl; [|done]. f_equal. lia. Qed.

(** C7, as stated, fails: with a timeout of 250 ms and an interval of
    100 ms, and the lock released after 260 ms, [exists_running] is [True]
    at every instant of the 250 ms, and [wait] returns [True]: the timeout is
    looked at only after a poll that saw [True], and the polls are at 0, 100,
    200 and 300 ms. *)
Lemma wait_true_after_timeout :
  (∀ t, 0 ≤ t ≤ 250 →
     (exists_running 0%nat (with_os (advance t released_late) (start released_late))).1
     = Return true)
  ∧ (wait 10 0%nat (Some 250) 100 (start released_late)).1 = Return (Some true)
  ∧ now (os (wait 10 0%nat (Some 250) 100 (start released_late)).2) = 300.
Proof.
  split; [|vm_compute; done].
  assert (forallb
            (λ t, match (exists_running 0%nat
                           (with_os (advance t released_late) (start released_late))).1 with
                  | Return true => true
                  | _ => false
                  end) (seqZ 0 251) = true) as Hall by (vm_compute; reflexivity).
  intros t Ht. rewrite forallb_forall in Hall.
  specialize (Hall t). rewrite <- list_elem_of_In, elem_of_seqZ in Hall.
  specialize (Hall ltac:(lia)).
  by destruct (exists_running _ _).1 as [[|]|].
Qed.

(** C7, amended.  [wait] polls [exists_running] every [interval]
    milliseconds of the clock.  It returns [True] at the first poll that sees
    [False], when that poll falls within the timeout, and more generally
    when the timeout had not run out at the polls before it; it returns
    [False] when every poll up to and including the first one at or after
    the end of the timeout sees [True]; and with a timeout it returns in any
    case, less than one interval after the timeout has run out.  ([sees k]
    is what the [k]-th poll of the loop observes; the clock moves only in
    [sleep].) *)
Theorem wait_semantics self timeout interval p :
  0 < interval →
  let sees := observes self interval (waiting p) in
  let elapsed q := now (os q) - now (os p) in
  (∀ k,
     (∀ j, (j < k)%nat → sees j = true) →
     sees k = false →
     within timeout (Z.of_nat k * interval) →
     ∀ fuel, (k < fuel)%nat →
       ∃ q, wait fuel self timeout interval p = (Return (Some true), q)
            ∧ elapsed q = Z.of_nat k * interval)
  ∧ (∀ k,
       (∀ j, (j < k)%nat →
             sees j = true ∧ expired timeout 0 (Z.of_nat j * interval) = false) →
       sees k = false →
       ∀ fuel, (k < fuel)%nat →
         ∃ q, wait fuel self timeout interval p = (Return (Some true), q)
              ∧ elapsed q = Z.of_nat k * interval)
  ∧ (∀ limit,
       timeout = Some limit →
       (∀ j, (j ≤ deadline_poll limit interval)%nat → sees j = true) →
       ∀ fuel, (deadline_poll limit interval < fuel)%nat →
         ∃ q, wait fuel self timeout interval p = (Return (Some false), q)
              ∧ limit ≤ elapsed q < Z.max 0 limit + interval)
  ∧ (∀ limit,
       timeout = Some limit →
       ∀ fuel, (deadline_poll limit interval < fuel)%nat →
         ∃ b q, wait fuel self timeout interval p = (Return (Some b), q)
                ∧ 0 ≤ elapsed q < Z.max 0 limit + interval).
Proof.
  intros Hi sees elapsed. assert (0 ≤ interval) as Hi0 by lia.
  assert (now (os (waiting p)) = now (os p)) as Hw by reflexivity.
  split_and!.
  - intros k Hbefore Hk Hin fuel Hfuel. rewrite wait_eq.
    rewrite (wait_loop_run self timeout interval (now (os p)) Hi0 k fuel (waiting p) Hfuel).
    + fold (sees k). rewrite Hk. eexists. split; [reflexivity|].
      unfold elapsed. rewrite after_poll_now by done. rewrite Hw. lia.
    + intros j Hj. split; [by apply Hbefore|]. rewrite Hw, expired_after.
      destruct timeout as [limit|]; [|done]. simpl in Hin. apply Z.leb_gt. nia.
  - intros k Hbefore Hk fuel Hfuel. rewrite wait_eq.
    rewrite (wait_loop_run self timeout interval (now (os p)) Hi0 k fuel (waiting p) Hfuel).
    + fold (sees k). rewrite Hk. eexists. split; [reflexivity|].
      unfold elapsed. rewrite after_poll_now by done. rewrite Hw. lia.
    + intros j Hj. destruct (Hbefore j Hj) as [Hs He]. split; [done|].
      rewrite Hw, expired_after. rewrite <- He. unfold expired.
      destruct timeout; [|done]. f_equal. lia.
  - intros limit -> Hall fuel Hfuel. rewrite wait_eq.
    destruct (deadline_poll_spec limit interval Hi) as (Hge & Hlt & Hbelow).
    rewrite (wait_loop_run self (Some limit) interval (now (os p)) Hi0
               (deadline_poll limit interval) fuel (waiting p) Hfuel).
    + fold (sees (deadline_poll limit interval)). rewrite Hall by lia.
      rewrite Hw, expired_after. rewrite (proj2 (Z.leb_le _ _) Hge).
      eexists. split; [reflexivity|].
      unfold elapsed. rewrite after_poll_now by done. rewrite Hw. lia.
    + intros j Hj. split; [apply Hall; lia|]. rewrite Hw, expired_after.
      apply Z.leb_gt. apply Hbelow. lia.
  - intros limit -> fuel Hfuel. rewrite wait_eq.
    destruct (deadline_poll_spec limit interval Hi) as (Hge & Hlt & _).
    destruct (wait_loop_ends self (Some limit) interval (now (os p)) Hi0
                (deadline_poll limit interval) fuel (waiting p) Hfuel)
      as (b & q & E & Hq).
    + rewrite Hw, expired_after. by apply Z.leb_le.
    + exists b, q. split; [done|]. unfold elapsed. rewrite Hw in Hq. lia.
Qed.

Lemma wait_semantics_witness :
  (∃ q, wait 10 0%nat (Some 1000) 100 (start (contended true)) = (Return (Some true), q)
        ∧ now (os q) - now (os (start (contended true))) = Z.of_nat 3 * 100)
  ∧ (∃ q, wait 10 0%nat (Some 250) 100 (start released_late) = (Return (Some true), q)
          ∧ now (os q) - now (os (start released_late)) = Z.of_nat 3 * 100)
  ∧ (∃ q, wait 10 0%nat (Some 200) 100 (start (contended true)) = (Return (Some false), q)
          ∧ 200 ≤ now (os q) - now (os (start (contended true))) < Z.max 0 200 + 100)
  ∧ (∃ b q, wait 10 0%nat (Some 250) 100 (start (contended false)) = (Return (Some b), q)
            ∧ 0 ≤ now (os q) - now (os (start (contended false))) < Z.max 0 250 + 100).
Proof.
  split; [|split; [|split]].
  - apply (proj1 (wait_semantics 0%nat (Some 1000) 100 (start (contended true)) eq_refl) 3%nat).
    + intros [|[|[|j]]] Hj; [vm_compute; reflexivity .. | lia].
    + vm_compute; reflexivity.
    + simpl. lia.
    + lia.
  - apply (proj1 (proj2 (wait_semantics 0%nat (Some 250) 100 (start released_late) eq_refl))
             3%nat).
    + intros [|[|[|j]]] Hj; [vm_compute; split; reflexivity .. | lia].
    + vm_compute; reflexivity.
    + lia.
  - apply (proj1 (proj2 (proj2
             (wait_semantics 0%nat (Some 200) 100 (start (contended true)) eq_refl)))
             200 eq_refl).
    + intros [|[|[|j]]] Hj; [vm_compute; reflexivity .. |]. vm_compute in Hj. lia.
    + vm_compute. lia.
  - apply (proj2 (proj2 (proj2
             (wait_semantics 0%nat (Some 250) 100 (start (contended false)) eq_refl)))
             250 eq_refl).
    vm_compute. lia.
Defined.

Lemma socket_path_posix_eq self p :
  windows (os p) = false →
  default_path (socket_clients p self) = None →
  socket_path_cache (socket_clients p self) = None →
  socket_path self p
  = match first_populated [environ (os p) !! "XDG_RUNTIME_DIR";
                            environ (os p) !! "HOME";
                            environ (os p) !! "TMPDIR"] with
    | Some dir =>
        let path := Path_div dir ("." +:+ name (socket_clients p self)) in
        (Return path, (set_socket_path_cache self (Some path) p).2)
    | None => (Raise SocketPathError, p)
    end.
Proof.
  intros Hw Hd Hc. unfold socket_path, socket_path_body.
  unfold bind at 1. unfold this_socket at 1, ask. rewrite Hc, Hd.
  unfold bind at 1. unfold bind at 1. unfold windows_check, ask. rewrite Hw.
  rewrite first_base_dir_spec. simpl fmap.
  destruct (first_populated _); simpl; done.
Qed.

(** C5. On POSIX, with no override and nothing cached, the address is the
    first of [XDG_RUNTIME_DIR], [HOME] and [TMPDIR] that is set and not
    empty, joined (as [pathlib] joins) with ['.' + name]; with only [HOME]
    set it is the join of the home directory and ['.' + name], which for a
    home directory and a name in the shape [pathlib] prints them is the
    string [<home>/.<name>]; with none of the three populated, resolving the
    address raises [SocketPathError]. *)
Theorem socket_path_posix self p :
  windows (os p) = false →
  default_path (socket_clients p self) = None →
  socket_path_cache (socket_clients p self) = None →
  let env var := environ (os p) !! var in
  let dotted := "." +:+ name (socket_clients p self) in
  (socket_path self p).1
  = match first_populated [env "XDG_RUNTIME_DIR"; env "HOME"; env "TMPDIR"] with
    | Some dir => Return (Path_div dir dotted)
    | None => Raise SocketPathError
    end
  ∧ (∀ home,
       env "XDG_RUNTIME_DIR" = None → env "TMPDIR" = None →
       env "HOME" = Some home → home ≠ "" →
       (socket_path self p).1 = Return (Path_div home dotted))
  ∧ (∀ comps,
       env "XDG_RUNTIME_DIR" = None → env "TMPDIR" = None →
       env "HOME" = Some (absolute comps) →
       comps ≠ [] → forallb plain comps = true →
       no_sep (name (socket_clients p self)) = true → name (socket_clients p self) ≠ "" →
       (socket_path self p).1
       = Return (absolute comps +:+ "/." +:+ name (socket_clients p self)))
  ∧ (populated (env "XDG_RUNTIME_DIR") = None →
     populated (env "HOME") = None →
     populated (env "TMPDIR") = None →
     socket_path self p = (Raise SocketPathError, p)).
Proof.
  intros Hw Hd Hc env dotted.
  rewrite (socket_path_posix_eq self p Hw Hd Hc).
  fold (env "XDG_RUNTIME_DIR") (env "HOME") (env "TMPDIR"). fold dotted.
  split_and!.
  - by destruct (first_populated _).
  - intros home Hx Ht Hh Hne. simpl. rewrite Hx, Hh. simpl. by destruct home.
  - intros comps Hx Ht Hh Hne Hall Hname Hn. simpl. rewrite Hx, Hh.
    unfold dotted. rewrite <- (Path_div_absolute comps) by done. done.
  - intros Hx Hh Ht. simpl. by rewrite Hx, Hh, Ht.
Qed.

Lemma socket_path_posix_witness :
  (socket_path 0%nat (start (at_home []))).1 = Return (Path_div "/home/user" ".app")
  ∧ (socket_path 0%nat (start (at_home []))).1
    = Return (absolute ["home"; "user"] +:+ "/." +:+ "app")
  ∧ socket_path 0%nat (start (boot false)) = (Raise SocketPathError, start (boot false)).
Proof.
  pose proof (socket_path_posix 0%nat (start (at_home [])) eq_refl eq_refl eq_refl)
    as (_ & Hhome & Habs & _).
  pose proof (socket_path_posix 0%nat (start (boot false)) eq_refl eq_refl eq_refl)
    as (_ & _ & _ & Hnone).
  split; [|split].
  - apply (Hhome "/home/user"); [reflexivity..|done].
  - apply (Habs ["home"; "user"]); [reflexivity..|done|reflexivity|reflexivity|done].
  - apply Hnone; reflexivity.
Defined.

(** C6, as stated, fails: a connection that is denied ([EACCES], Python's
    [PermissionError]) is not absorbed; [connect] raises it. *)
Lemma connect_raises_permission_error :
  dial_errno "/home/user/.app"
    (os (start (at_home [("/home/user/.app", Unavailable EACCES)]))) = Some EACCES
  ∧ is_PermissionError (OSError EACCES) = true
  ∧ (connect 0%nat (start (at_home [("/home/user/.app", Unavailable EACCES)]))).1
    = Raise (OSError EACCES).
Proof. vm_compute. done. Qed.

(** C6, amended.  [connect] on a connected client does nothing.  On a client
    that is not connected and whose address resolves, a connection that fails
    because the endpoint is missing or refuses is logged and leaves the client
    disconnected without raising; a connection that fails for any other
    reason leaves the client disconnected as well, but the error is raised to
    the caller and not logged. *)
Theorem connect_failures self p :
  (is_connect (socket_clients p self) = true →
   connect self p = (Return {| socket := self |}, p))
  ∧ (∀ path p1 e,
       is_connect (socket_clients p self) = false →
       socket_path self p = (Return path, p1) →
       dial_errno path (os p) = Some e →
       let absorbed := (e =? ENOENT) || (e =? ECONNREFUSED) in
       ∃ p', connect self p
             = (if absorbed then Return {| socket := self |} else Raise (OSError e), p')
         ∧ is_connect (socket_clients p' self) = false
         ∧ logged p'
           = logged p ++ (Debug, "Attempting to connecting socket")
                         :: (if absorbed then [(Exception, "Socket connection failed")]
                             else [])).
Proof.
  split.
  - apply connect_connected.
  - intros path p1 e. apply connect_fails.
Qed.

Lemma connect_failures_witness :
  connect 0%nat broken_pipe = (Return {| socket := 0%nat |}, broken_pipe)
  ∧ (∃ p', connect 0%nat (start (at_home []))
           = (if (ENOENT =? ENOENT) || (ENOENT =? ECONNREFUSED)
              then Return {| socket := 0%nat |} else Raise (OSError ENOENT), p')
       ∧ is_connect (socket_clients p' 0%nat) = false
       ∧ logged p'
         = logged (start (at_home [])) ++ (Debug, "Attempting to connecting socket")
             :: (if (ENOENT =? ENOENT) || (ENOENT =? ECONNREFUSED)
                 then [(Exception, "Socket connection failed")] else [])).
Proof.
  split.
  - apply (proj1 (connect_failures 0%nat broken_pipe)). reflexivity.
  - apply (proj2 (connect_failures 0%nat (start (at_home []))) "/home/user/.app"
             (socket_path 0%nat (start (at_home []))).2 ENOENT); vm_compute; reflexivity.
Defined.

(** C8, as stated, fails: when closing the transport raises, the client goes
    on reporting [is_connect]. *)
Lemma disconnect_close_error_stays_connected :
  is_connect (socket_clients broken_pipe 0%nat) = true
  ∧ (transport_close (Pipe 3) (os broken_pipe)).1 = Err EIO
  ∧ (disconnect 0%nat broken_pipe).1 = Return tt
  ∧ is_connect (socket_clients (disconnect 0%nat broken_pipe).2 0%nat) = true.
Proof. vm_compute. done. Qed.

(** C8, amended.  [disconnect] on a client that is not connected does
    nothing.  On a connected client whose address resolves, as it does for
    every client that [connect] connected, it raises nothing and the
    transport is closed afterwards; the client is marked disconnected when
    the close succeeded, and when the close raised the error is logged and
    the client still reports [is_connect]. *)
Theorem disconnect_marks_on_success self p :
  (_pipe (socket_clients p self) = None → disconnect self p = (Return tt, p))
  ∧ (∀ pipe path p1,
       _pipe (socket_clients p self) = Some pipe →
       socket_path self p = (Return path, p1) →
       ∃ p', disconnect self p = (Return tt, p')
         ∧ conns (os p') !! transport_id pipe = None
         ∧ match (transport_close pipe (os p)).1 with
           | Ok _ =>
               is_connect (socket_clients p' self) = false
               ∧ logged p'
                 = logged p ++ [(Debug, "Disconnecting socket");
                                (Debug, "Socket disconnected successfully")]
           | Err _ =>
               is_connect (socket_clients p' self) = true
               ∧ logged p'
                 = logged p ++ [(Debug, "Disconnecting socket");
                                (Exception, "Socket close failed")]
           end)
  ∧ (∀ p0 guard,
       is_connect (socket_clients p0 self) = false →
       connect self p0 = (Return guard, p) →
       is_connect (socket_clients p self) = true →
       ∃ path, socket_path self p = (Return path, p)).
Proof.
  split_and!.
  - apply disconnect_not_connected.
  - intros pipe path p1 Hc Hs.
    destruct (disconnect_connected self p pipe path p1 Hc Hs) as (p' & E & Hos & Hm).
    exists p'. split_and!; [done| |done].
    rewrite Hos. destruct (transport_close pipe (os p)) as [r w'] eqn:Et.
    by apply (transport_close_gone _ _ _ _ Et).
  - intros p0 guard. apply connect_caches_address.
Qed.

Lemma disconnect_marks_on_success_witness :
  disconnect 0%nat (start (boot true)) = (Return tt, start (boot true))
  ∧ (∃ p', disconnect 0%nat broken_pipe = (Return tt, p')
       ∧ conns (os p') !! transport_id (Pipe 3) = None
       ∧ match (transport_close (Pipe 3) (os broken_pipe)).1 with
         | Ok _ =>
             is_connect (socket_clients p' 0%nat) = false
             ∧ logged p'
               = logged broken_pipe ++ [(Debug, "Disconnecting socket");
                                        (Debug, "Socket disconnected successfully")]
         | Err _ =>
             is_connect (socket_clients p' 0%nat) = true
             ∧ logged p'
               = logged broken_pipe ++ [(Debug, "Disconnecting socket");
                                        (Exception, "Socket close failed")]
         end)
  ∧ (∃ path, socket_path 0%nat connected = (Return path, connected)).
Proof.
  split; [|split].
  - apply (proj1 (disconnect_marks_on_success 0%nat (start (boot true)))). reflexivity.
  - apply (proj1 (proj2 (disconnect_marks_on_success 0%nat broken_pipe))
             (Pipe 3) "\\.\pipe\app" broken_pipe);
      reflexivity.
  - apply (proj2 (proj2 (disconnect_marks_on_success 0%nat connected))
             (start listening) {| socket := 0%nat |});
      vm_compute; reflexivity.
Defined.

(** * Further properties *)

(** ** Taking the lock *)

(** [os.open] with [O_RDWR | O_CREAT | O_EXCL] where there is no file. *)
Lemma os_open_create path mode w :
  names w !! path = None → dir_writable w = true →
  os_open path create_flags mode w =
    (Ok (fresh (dom (fds w))),
     set_fds (<[fresh (dom (fds w)) := fresh (dom (inodes w))]> (fds w))
       (set_files (<[path := fresh (dom (inodes w))]> (names w))
          (<[fresh (dom (inodes w)) := {| i_mode := mode; i_owned := true; i_holders := [] |}]>
             (inodes w)) w)).
Proof. unfold os_open. intros -> ->. reflexivity. Qed.

(** The non-blocking lock on a descriptor whose file nobody has locked. *)
Lemma try_lock_unlocked fd ino f w :
  fds w !! fd = Some ino → inodes w !! ino = Some f → i_holders f = [] →
  lock_errno w = None →
  try_lock fd w = (Ok tt, update_inode ino (set_holders [(Desc fd, true)] f) w).
Proof.
  intros Hfd Hino Hh He. unfold try_lock, msvcrt_locking, fcntl_flock.
  rewrite Hfd, Hino, He, Hh. by destruct (windows w).
Qed.

Section acquire_ok.
Variables (self : loc) (p : process).
Let c := lock_clients p self.

(** [acquire] when both steps succeed. *)
Lemma acquire_lock_ok fd w1 w2 :
  is_locked c = false →
  os_open (lockfile c) create_flags (_mode c) (os p) = (Ok fd, w1) →
  try_lock fd w1 = (Ok tt, w2) →
  acquire self p =
    (Return {| lock := self |},
     {| lock_clients :=
          <[self := {| _mode := _mode c; _fd := Some fd; lockfile := lockfile c |}]>
            (lock_clients p);
        socket_clients := socket_clients p;
        os := w2;
        logged := logged p ++ [(Debug, "Acquiring lock on file")] |}).
Proof.
  intros Hc Ho Hl.
  unfold acquire. unfold_M. simpl. fold c. rewrite Hc. simpl.
  fold create_flags. rewrite Ho. simpl.
  unfold try_lock in Hl.
  destruct (os_open_Ok _ _ _ _ _ _ Ho) as (_ & _ & _ & Hw & _).
  destruct (windows w1); simpl; rewrite Hl; simpl; done.
Qed.
End acquire_ok.

(** [acquire] where the lock is there for the taking. *)
Lemma acquire_takes_free_lock_run self p :
  is_locked (lock_clients p self) = false →
  available (lockfile (lock_clients p self)) (os p) →
  ∃ fd ino p',
    acquire self p = (Return {| lock := self |}, p')
    ∧ _fd (lock_clients p' self) = Some fd
    ∧ fds (os p) !! fd = None
    ∧ fds (os p') = <[fd := ino]> (fds (os p))
    ∧ names (os p') = <[lockfile (lock_clients p self) := ino]> (names (os p))
    ∧ inodes (os p) !! ino = None
    ∧ inodes (os p') !! ino
      = Some {| i_mode := _mode (lock_clients p self); i_owned := true;
                i_holders := [(Desc fd, true)] |}
    ∧ lockfile (lock_clients p' self) = lockfile (lock_clients p self)
    ∧ dir_writable (os p') = true
    ∧ lock_errno (os p') = None
    ∧ now (os p') = now (os p)
    ∧ logged p' = logged p ++ [(Debug, "Acquiring lock on file")].
Proof.
  intros Hc (Hex%path_exists_false & Hd & He).
  pose proof (os_open_create _ (_mode (lock_clients p self)) _ Hex Hd) as Ho.
  pose proof (fresh_inode (os p)) as Hnew.
  set (fd := fresh (dom (fds (os p)))) in *.
  set (ino := fresh (dom (inodes (os p)))) in *.
  match type of Ho with _ = (_, ?w) => set (w1 := w) in * end.
  assert (try_lock fd w1 = (Ok tt, update_inode ino (set_holders [(Desc fd, true)]
            {| i_mode := _mode (lock_clients p self); i_owned := true; i_holders := [] |}) w1))
    as Hl.
  { apply try_lock_unlocked; subst w1; simpl; rewrite ?lookup_insert_eq; done. }
  exists fd, ino. eexists. split; [by apply (acquire_lock_ok self p fd w1 _ Hc Ho Hl)|].
  simpl. rewrite fn_lookup_insert, lookup_insert_eq. split_and!; try done.
  apply fresh_fd.
Qed.

(** X1. [acquire] on a client that does not hold the lock, where no lock file
    exists, the directory may be written to and the file system accepts
    locks, takes the lock: it returns the guard, the client holds a
    descriptor that was not open before, the lock path names a file that was
    not there before, this descriptor is open on it and is the one holder of
    a lock on it, an exclusive one, and the debug line is all that is
    logged. *)
Theorem acquire_takes_free_lock self p :
  is_locked (lock_clients p self) = false →
  available (lockfile (lock_clients p self)) (os p) →
  ∃ fd ino f p',
    acquire self p = (Return {| lock := self |}, p')
    ∧ _fd (lock_clients p' self) = Some fd
    ∧ fds (os p) !! fd = None
    ∧ fds (os p') = <[fd := ino]> (fds (os p))
    ∧ names (os p') = <[lockfile (lock_clients p self) := ino]> (names (os p))
    ∧ inodes (os p) !! ino = None
    ∧ inodes (os p') !! ino = Some f
    ∧ i_holders f = [(Desc fd, true)]
    ∧ logged p' = logged p ++ [(Debug, "Acquiring lock on file")].
Proof.
  intros Hc Hav.
  destruct (acquire_takes_free_lock_run self p Hc Hav)
    as (fd & ino & p' & ? & ? & ? & ? & ? & ? & ? & _ & _ & _ & _ & ?).
  exists fd, ino. eexists. exists p'. split_and!; try done.
Qed.

(** [acquire] touches no other client object. *)
Lemma acquire_frame self p :
  socket_clients (acquire self p).2 = socket_clients p
  ∧ ∀ other, other ≠ self → lock_clients (acquire self p).2 other = lock_clients p other.
Proof.
  unfold acquire. unfold_M. simpl.
  repeat (case_match; simplify_eq; simpl in *; try done);
    split; try done; intros other Hne; rewrite ?fn_lookup_insert_ne by done; done.
Qed.

Lemma try_lock_names fd w r w' : try_lock fd w = (r, w') → names w' = names w.
Proof.
  unfold try_lock. destruct (windows w); intros H.
  - by apply msvcrt_locking_frame in H as (?&_).
  - by apply fcntl_flock_frame in H as (?&_).
Qed.

(** [acquire] where the lock file is in place already. *)
Lemma acquire_file_exists self p :
  is_locked (lock_clients p self) = false →
  path_exists (lockfile (lock_clients p self)) (os p) = true →
  acquire self p =
    (Return {| lock := self |},
     {| lock_clients :=
          <[self := {| _mode := _mode (lock_clients p self); _fd := None;
                       lockfile := lockfile (lock_clients p self) |}]> (lock_clients p);
        socket_clients := socket_clients p;
        os := os p;
        logged := logged p ++ [(Debug, "Acquiring lock on file");
                               (Exception, "Failed to open lockfile")] |}).
Proof.
  intros Hc Hex.
  pose proof (os_open_excl_exists _ create_flags (_mode (lock_clients p self)) _ eq_refl Hex)
    as Ho.
  unfold acquire. unfold_M. simpl. rewrite Hc. simpl.
  fold create_flags. rewrite Ho. simpl. by rewrite <- app_assoc.
Qed.

(** X3. While the lock file exists, whether or not anybody holds a lock on it,
    [acquire] on a client that does not hold the lock fails at the create
    step: the client stays without the lock, the operating system is not
    touched, and after the debug line the failure is logged with
    [log.exception] as 'Failed to open lockfile'. *)
Theorem acquire_blocked_by_lock_file self p :
  is_locked (lock_clients p self) = false →
  path_exists (lockfile (lock_clients p self)) (os p) = true →
  ∃ p', acquire self p = (Return {| lock := self |}, p')
    ∧ is_locked (lock_clients p' self) = false
    ∧ os p' = os p
    ∧ logged p' = logged p ++ [(Debug, "Acquiring lock on file");
                               (Exception, "Failed to open lockfile")].
Proof.
  intros Hc Hex. eexists. split; [by apply acquire_file_exists|].
  simpl. by rewrite fn_lookup_insert.
Qed.

Lemma acquire_blocked_by_lock_file_witness :
  ∃ p', acquire 0%nat (start (orphaned false)) = (Return {| lock := 0%nat |}, p')
    ∧ is_locked (lock_clients p' 0%nat) = false
    ∧ os p' = orphaned false
    ∧ logged p' = [(Debug, "Acquiring lock on file"); (Exception, "Failed to open lockfile")].
Proof. apply (acquire_blocked_by_lock_file 0%nat (start (orphaned false))); reflexivity. Defined.

(** A client that did not hold the lock and holds it after [acquire] got
    it from the exclusive create and the non-blocking lock. *)
Lemma acquire_locked_inv self p :
  is_locked (lock_clients p self) = false →
  is_locked (lock_clients (acquire self p).2 self) = true →
  ∃ fd w1 w2,
    os_open (lockfile (lock_clients p self)) create_flags
      (_mode (lock_clients p self)) (os p) = (Ok fd, w1)
    ∧ try_lock fd w1 = (Ok tt, w2).
Proof.
  intros Hc.
  destruct (os_open (lockfile (lock_clients p self)) create_flags
              (_mode (lock_clients p self)) (os p)) as [[fd|e] w1] eqn:Ho.
  - destruct (try_lock fd w1) as [[[]|e] w2] eqn:Hl; [eauto|].
    destruct (acquire_lock_fails self p fd w1 e w2 Hc Ho Hl) as (p' & -> & Hl' & _).
    simpl. congruence.
  - destruct (acquire_open_fails self p e w1 Hc Ho) as (p' & -> & Hl' & _).
    simpl. congruence.
Qed.

(** X2. Once the lock path of the client is resolved, as it is in a
    [LockClient] here, after [acquire] the client holds the lock exactly when
    it held it before, or the exclusive create and the non-blocking lock both
    succeeded; and no other client object is touched. *)
Theorem acquire_locked_iff self p :
  (is_locked (lock_clients (acquire self p).2 self) = true ↔
     is_locked (lock_clients p self) = true
     ∨ ∃ fd w1 w2,
         os_open (lockfile (lock_clients p self)) create_flags
           (_mode (lock_clients p self)) (os p) = (Ok fd, w1)
         ∧ try_lock fd w1 = (Ok tt, w2))
  ∧ socket_clients (acquire self p).2 = socket_clients p
  ∧ ∀ other, other ≠ self → lock_clients (acquire self p).2 other = lock_clients p other.
Proof.
  split; [|apply acquire_frame].
  destruct (is_locked (lock_clients p self)) eqn:Hc.
  { rewrite (acquire_held self p Hc). simpl. rewrite Hc. split; auto. }
  split.
  - intros H. right. by apply acquire_locked_inv.
  - intros [?|(fd & w1 & w2 & Ho & Hl)]; [done|].
    rewrite (acquire_lock_ok self p fd w1 w2 Hc Ho Hl). simpl.
    by rewrite fn_lookup_insert.
Qed.

(** X4. Two clients of one lock file: once [acquire] has given the lock to one
    of them, [acquire] on the other leaves the other without the lock and
    the first with it, and the operating system as the first [acquire] left
    it. *)
Theorem second_client_excluded a b p :
  a ≠ b →
  lockfile (lock_clients p b) = lockfile (lock_clients p a) →
  is_locked (lock_clients p a) = false →
  is_locked (lock_clients p b) = false →
  is_locked (lock_clients (acquire a p).2 a) = true →
  ∃ p2, acquire b (acquire a p).2 = (Return {| lock := b |}, p2)
    ∧ is_locked (lock_clients p2 b) = false
    ∧ is_locked (lock_clients p2 a) = true
    ∧ os p2 = os (acquire a p).2.
Proof.
  intros Hne Hfile Ha Hb Hgot.
  destruct (acquire_locked_inv a p Ha Hgot) as (fd & w1 & w2 & Ho & Hl).
  rewrite (acquire_lock_ok a p fd w1 w2 Ha Ho Hl). cbn [snd].
  destruct (os_open_Ok _ _ _ _ _ _ Ho) as (ino & _ & Hnm & _).
  apply try_lock_names in Hl as Hnames.
  eexists. split.
  - apply acquire_file_exists; simpl; rewrite fn_lookup_insert_ne by done; [done|].
    apply path_exists_true. rewrite Hfile, Hnames, Hnm. eauto.
  - simpl. repeat (rewrite fn_lookup_insert || rewrite fn_lookup_insert_ne by done). done.
Qed.

Lemma second_client_excluded_witness :
  ∃ p2, acquire 1%nat (acquire 0%nat (start (boot false))).2 = (Return {| lock := 1%nat |}, p2)
    ∧ is_locked (lock_clients p2 1%nat) = false
    ∧ is_locked (lock_clients p2 0%nat) = true
    ∧ os p2 = os (acquire 0%nat (start (boot false))).2.
Proof.
  apply (second_client_excluded 0%nat 1%nat (start (boot false))); [lia|reflexivity..].
Defined.

(** X5. Entering a [with] block on a client while the lock file exists raises
    nothing and yields the client, which does not hold the lock; leaving the
    block then does nothing at all: no delay, and the lock file of the other
    instance stays where it is. *)
Theorem with_lock_client_blocked self p :
  is_locked (lock_clients p self) = false →
  path_exists (lockfile (lock_clients p self)) (os p) = true →
  ∃ p1, LockClient_enter self p = (Return self, p1)
    ∧ is_locked (lock_clients p1 self) = false
    ∧ LockClient_exit self p1 = (Return tt, p1)
    ∧ os p1 = os p.
Proof.
  intros Hc Hex. unfold LockClient_enter, LockClient_exit, bind.
  rewrite (acquire_file_exists self p Hc Hex). eexists. split; [reflexivity|].
  split_and!; [by simpl; rewrite fn_lookup_insert| |done].
  apply release_not_held. simpl. by rewrite fn_lookup_insert.
Qed.

Lemma with_lock_client_blocked_witness :
  ∃ p1, LockClient_enter 1%nat (holding true) = (Return 1%nat, p1)
    ∧ is_locked (lock_clients p1 1%nat) = false
    ∧ LockClient_exit 1%nat p1 = (Return tt, p1)
    ∧ os p1 = os (holding true).
Proof. apply (with_lock_client_blocked 1%nat (holding true)); reflexivity. Defined.

(** X6. When the lock step of [acquire] fails with the error number [e], what
    is logged after the debug line is the exception 'Failed to locking file'
    if [e] is [EACCES], and the warning 'Permission denied during file lock
    operation' for every other error, [ENOSYS] included: 'Locking not
    supported on filesystem' is never logged. *)
Theorem acquire_lock_failure_log self p fd w1 e w2 :
  is_locked (lock_clients p self) = false →
  os_open (lockfile (lock_clients p self)) create_flags (_mode (lock_clients p self)) (os p)
    = (Ok fd, w1) →
  try_lock fd w1 = (Err e, w2) →
  logged (acquire self p).2
  = logged p ++ [(Debug, "Acquiring lock on file");
                 if e =? EACCES then (Exception, "Failed to locking file")
                 else (Warning, "Permission denied during file lock operation")].
Proof.
  intros Hc Ho Hl. pose proof (try_lock_Err _ _ _ _ Hl) as ->.
  destruct (os_open_Ok _ _ _ _ _ _ Ho) as (ino & Hfd & Hnm & _).
  destruct (os_close_Ok _ _ _ Hfd) as (w3 & Hcl & _).
  unfold acquire. unfold_M. simpl. rewrite Hc. simpl.
  fold create_flags. rewrite Ho. simpl.
  unfold try_lock in Hl.
  destruct (windows w1); simpl; rewrite Hl; simpl;
    destruct (e =? EACCES) eqn:He; simpl;
    [apply Z.eqb_eq in He as ->; simpl| |apply Z.eqb_eq in He as ->; simpl|];
    rewrite Hcl; simpl; by rewrite <- app_assoc.
Qed.

Lemma acquire_lock_failure_log_witness :
  logged (acquire 0%nat (start unsupported)).2
  = [] ++ [(Debug, "Acquiring lock on file");
           if ENOSYS =? EACCES then (Exception, "Failed to locking file")
           else (Warning, "Permission denied during file lock operation")].
Proof.
  apply (acquire_lock_failure_log 0%nat (start unsupported) 3
           (os_open lock_path create_flags 420 unsupported).2 ENOSYS
           (os_open lock_path create_flags 420 unsupported).2);
    reflexivity.
Defined.

Lemma acquire_takes_free_lock_witness :
  ∃ fd ino f p',
    acquire 0%nat (start (boot true)) = (Return {| lock := 0%nat |}, p')
    ∧ _fd (lock_clients p' 0%nat) = Some fd
    ∧ fds (boot true) !! fd = None
    ∧ fds (os p') = <[fd := ino]> (fds (boot true))
    ∧ names (os p') = <[lock_path := ino]> (names (boot true))
    ∧ inodes (boot true) !! ino = None
    ∧ inodes (os p') !! ino = Some f
    ∧ i_holders f = [(Desc fd, true)]
    ∧ logged p' = [] ++ [(Debug, "Acquiring lock on file")].
Proof.
  apply (acquire_takes_free_lock 0%nat (start (boot true))); [reflexivity|].
  split_and!; reflexivity.
Defined.

(** ** Giving the lock back *)

(** The last statement of [release] raises only what [unlink] raised, and
    never because the file was missing. *)
Lemma unlink_lockfile_raises path q e :
  (suppress is_FileNotFoundError (Path_unlink path true) q).1 = Raise e →
  ∃ n, e = OSError n ∧ n ≠ ENOENT
    ∧ os_unlink path (os (suppress is_FileNotFoundError (Path_unlink path true) q).2)
      = (Err n, os (suppress is_FileNotFoundError (Path_unlink path true) q).2).
Proof.
  unfold_M.
  destruct (os_unlink path (os q)) as [[[]|n] w] eqn:E; simpl; [done|].
  pose proof (os_unlink_Err _ _ _ _ E) as ->.
  unfold is_FileNotFoundError. destruct (n =? ENOENT) eqn:En; simpl; [done|].
  rewrite En. simpl. intros [= <-]. exists n. split_and!; [done| |done].
  by apply Z.eqb_neq.
Qed.

(** X7. [release] raises only what the final [unlink] of the lock file raised:
    if it raises, the client held the lock, the exception is an [OSError]
    other than [FileNotFoundError], and it is the error with which the lock
    file cannot be removed in the state [release] ends in. *)
Theorem release_raises_only_from_unlink self p e :
  (release self p).1 = Raise e →
  ∃ n fd, e = OSError n ∧ n ≠ ENOENT
    ∧ _fd (lock_clients p self) = Some fd
    ∧ os_unlink (lockfile (lock_clients p self)) (os (release self p).2)
      = (Err n, os (release self p).2).
Proof.
  destruct (_fd (lock_clients p self)) as [fd|] eqn:Hfd.
  - rewrite (release_held_eq self p fd Hfd).
    destruct (unlock_and_close _ _ _) as [r1 q]. intros H.
    apply unlink_lockfile_raises in H as (n & ? & ? & ?). exists n, fd. done.
  - by rewrite (release_not_held self p Hfd).
Qed.

Lemma release_raises_only_from_unlink_witness :
  ∃ n fd, OSError EACCES = OSError n ∧ n ≠ ENOENT
    ∧ _fd (lock_clients locked_out 0%nat) = Some fd
    ∧ os_unlink lock_path (os (release 0%nat locked_out).2)
      = (Err n, os (release 0%nat locked_out).2).
Proof. apply (release_raises_only_from_unlink 0%nat locked_out). reflexivity. Defined.

(** What other processes do leaves this process's descriptors, the
    directory's permissions and the file system's support of locks alone,
    and cannot take a lock away from a descriptor that holds it. *)
Lemma apply_event_frame w ev :
  fds (apply_event w ev) = fds w ∧ dir_writable (apply_event w ev) = dir_writable w
  ∧ lock_errno (apply_event w ev) = lock_errno w ∧ windows (apply_event w ev) = windows w
  ∧ now (apply_event w ev) = now w ∧ pending (apply_event w ev) = pending w.
Proof. destruct ev; simpl; repeat case_match; done. Qed.

Lemma apply_event_holds_lock fd ino w ev :
  holds_lock fd ino w → holds_lock fd ino (apply_event w ev).
Proof.
  intros (Hfd & f & Hf & Ho & Hh).
  split; [by rewrite (proj1 (apply_event_frame w ev))|].
  destruct ev as [path mode|path|path|path]; simpl; repeat case_match; simpl; eauto.
  - exists f. rewrite lookup_insert_ne; [done|].
    intros <-. by rewrite fresh_inode in Hf.
  - destruct (decide (n = ino)) as [->|Hne].
    + simplify_eq. select (i_holders _ = []) (fun H => rewrite H in Hh).
      by apply not_elem_of_nil in Hh.
    + exists f. by rewrite lookup_insert_ne.
  - destruct (decide (n = ino)) as [->|Hne].
    + simplify_eq. eexists. rewrite lookup_insert_eq. split; [done|]. simpl.
      split; [done|]. apply list_elem_of_filter. done.
    + exists f. by rewrite lookup_insert_ne.
Qed.

Lemma foldl_apply_event_frame evs : ∀ w,
  fds (foldl apply_event w evs) = fds w
  ∧ dir_writable (foldl apply_event w evs) = dir_writable w
  ∧ lock_errno (foldl apply_event w evs) = lock_errno w
  ∧ windows (foldl apply_event w evs) = windows w.
Proof.
  induction evs as [|ev evs IH]; intros w; simpl; [done|].
  destruct (IH (apply_event w ev)) as (-> & -> & -> & ->).
  destruct (apply_event_frame w ev) as (-> & -> & -> & -> & _). done.
Qed.

Lemma foldl_apply_event_holds_lock fd ino evs : ∀ w,
  holds_lock fd ino w → holds_lock fd ino (foldl apply_event w evs).
Proof.
  induction evs as [|ev evs IH]; intros w H; simpl; [done|].
  by apply IH, apply_event_holds_lock.
Qed.

Lemma advance_frame d w :
  fds (advance d w) = fds w ∧ dir_writable (advance d w) = dir_writable w
  ∧ lock_errno (advance d w) = lock_errno w ∧ windows (advance d w) = windows w
  ∧ now (advance d w) = now w + d.
Proof.
  unfold advance. simpl.
  destruct (foldl_apply_event_frame ((filter (λ ev, ev.1 ≤ now w + d) (pending w)).*2) w)
    as (-> & -> & -> & ->). done.
Qed.

Lemma advance_holds_lock fd ino d w :
  holds_lock fd ino w → holds_lock fd ino (advance d w).
Proof.
  intros H. unfold advance.
  apply (foldl_apply_event_holds_lock fd ino
           ((filter (λ ev, ev.1 ≤ now w + d) (pending w)).*2)) in H.
  destruct H as (Hfd & f & Hf & Ho & Hh). split; [done|]. exists f. done.
Qed.

(** The sequence of [release] on a descriptor that holds the lock. *)
Lemma unlock_and_close_ok c fd ino q :
  holds_lock fd ino (os q) → lock_errno (os q) = None →
  ∃ q', unlock_and_close c fd q = (Return tt, q')
    ∧ q' = with_os (os q') q
    ∧ fds (os q') = delete fd (fds (os q))
    ∧ names (os q') = names (os q)
    ∧ dir_writable (os q') = dir_writable (os q)
    ∧ lock_errno (os q') = lock_errno (os q)
    ∧ now (os q') = now (os q).
Proof.
  intros (Hfd & f & Hf & Ho & Hh) He.
  unfold unlock_and_close. unfold_M. simpl.
  destruct (windows (os q)) eqn:Hw; simpl.
  - unfold msvcrt_locking. rewrite Hfd, Hf. simpl.
    rewrite bool_decide_eq_true_2 by done. simpl.
    unfold os_close. simpl. rewrite Hfd, lookup_insert_eq. simpl.
    eexists. split; [reflexivity|]. done.
  - unfold os_fchmod. rewrite Hfd, Hf, Ho. simpl.
    unfold fcntl_flock. simpl. rewrite Hfd, He, lookup_insert_eq. simpl.
    unfold os_close. simpl. rewrite Hfd, lookup_insert_eq. simpl.
    eexists. split; [reflexivity|]. done.
Qed.

Lemma unlink_lockfile_ok path q :
  dir_writable (os q) = true →
  ∃ w', suppress is_FileNotFoundError (Path_unlink path true) q = (Return tt, with_os w' q)
    ∧ names w' !! path = None
    ∧ fds w' = fds (os q)
    ∧ dir_writable w' = true
    ∧ lock_errno w' = lock_errno (os q)
    ∧ now w' = now (os q).
Proof.
  intros Hd. unfold_M. unfold os_unlink. rewrite Hd.
  destruct (names (os q) !! path) eqn:En; simpl; eexists; (split; [reflexivity|]); simpl;
    rewrite ?lookup_delete_eq; done.
Qed.

(** [release] by a client whose descriptor holds the lock, in a directory
    it may write to: whatever other processes did during the delay, the
    sequence succeeds and the file is removed. *)
Lemma release_holder self p fd ino :
  _fd (lock_clients p self) = Some fd →
  holds_lock fd ino (os p) → lock_errno (os p) = None → dir_writable (os p) = true →
  ∃ p', release self p = (Return tt, p')
    ∧ is_locked (lock_clients p' self) = false
    ∧ socket_clients p' = socket_clients p
    ∧ names (os p') !! lockfile (lock_clients p self) = None
    ∧ fds (os p') = delete fd (fds (os p))
    ∧ dir_writable (os p') = true
    ∧ lock_errno (os p') = None
    ∧ now (os p') = now (os p) + 300
    ∧ logged p' = logged p ++ [(Debug, "Release lock"); (Debug, "Lock release successfully")].
Proof.
  intros Hfd Hh He Hd.
  destruct (advance_frame 300 (os p)) as (Hfds & Hd' & He' & _ & Hnow).
  destruct (unlock_and_close_ok (lock_clients p self) fd ino (delayed p))
    as (q & Hseq & Hq & Hqfd & _ & Hqd & Hqe & Hqn).
  { by apply advance_holds_lock. }
  { change (lock_errno (advance 300 (os p)) = None). congruence. }
  change (os (delayed p)) with (advance 300 (os p)) in *.
  rewrite (release_held_eq self p fd Hfd), Hseq.
  match goal with |- context [suppress _ _ ?s] => set (q1 := s) end.
  destruct (unlink_lockfile_ok (lockfile (lock_clients p self)) q1)
    as (w' & Hun & Hgone & Hwfd & Hwd & Hwe & Hwn).
  { subst q1. simpl. congruence. }
  rewrite Hun. eexists. split; [reflexivity|].
  subst q1. simpl in *. rewrite fn_lookup_insert. rewrite Hq. simpl.
  split_and!; try done; try congruence.
  by rewrite <- app_assoc.
Qed.

(** X8. Taking a free lock and leaving the guard's scope gives it back:
    [acquire] succeeds; the [release] of [AcquireLock.__exit__] returns
    without raising, whichever files other processes create, lock, unlock or
    remove during its delay (the directory stays writable); the client no
    longer holds the lock; the lock is free again (no lock file);
    the descriptor table is the one before [acquire]; and 300 ms have
    passed. *)
Theorem acquire_release_round_trip self p :
  is_locked (lock_clients p self) = false →
  available (lockfile (lock_clients p self)) (os p) →
  ∃ guard p1 p2,
    acquire self p = (Return guard, p1)
    ∧ is_locked (lock_clients p1 self) = true
    ∧ AcquireLock_exit guard p1 = (Return tt, p2)
    ∧ is_locked (lock_clients p2 self) = false
    ∧ available (lockfile (lock_clients p self)) (os p2)
    ∧ fds (os p2) = fds (os p)
    ∧ now (os p2) = now (os p) + 300.
Proof.
  intros Hc Hav. pose proof Hav as (Hex & Hd & He).
  destruct (acquire_takes_free_lock_run self p Hc Hav)
    as (fd & ino & p1 & Ha & Hfd & Hnew & Hfds & Hnames & _ & Hino & Hc1 & Hd1 & He1 & Hn1).
  destruct (release_holder self p1 fd ino)
    as (p2 & Hr & Hl2 & _ & Hgone & Hfds2 & Hd2 & He2 & Hn2 & _); try done.
  { split; [by rewrite Hfds, lookup_insert_eq|]. eexists. split; [done|]. simpl.
    split; [done|]. apply list_elem_of_singleton. done. }
  exists {| lock := self |}, p1, p2. split_and!; try done.
  - unfold is_locked. by rewrite Hfd.
  - rewrite Hc1 in Hgone. split_and!; [by apply path_exists_false|done..].
  - rewrite Hfds2, Hfds. by apply delete_insert_id.
  - lia.
Qed.

Lemma acquire_release_round_trip_witness :
  ∃ guard p1 p2,
    acquire 0%nat (start (boot false)) = (Return guard, p1)
    ∧ is_locked (lock_clients p1 0%nat) = true
    ∧ AcquireLock_exit guard p1 = (Return tt, p2)
    ∧ is_locked (lock_clients p2 0%nat) = false
    ∧ available lock_path (os p2)
    ∧ fds (os p2) = fds (boot false)
    ∧ now (os p2) = now (boot false) + 300.
Proof.
  apply (acquire_release_round_trip 0%nat (start (boot false))); [reflexivity|].
  split_and!; reflexivity.
Defined.

(** ** Looking for another instance *)

Lemma os_open_existing path mode w fd w' :
  os_open path O_RDWR mode w = (Ok fd, w') →
  ∃ ino f, names w !! path = Some ino ∧ inodes w !! ino = Some f
    ∧ may_open O_RDWR f = true
    ∧ fd = fresh (dom (fds w)) ∧ w' = set_fds (<[fd := ino]> (fds w)) w.
Proof.
  unfold os_open. change (has_flag O_CREAT O_RDWR) with false. simpl.
  intros H. case_sys; simplify_eq. eauto 10.
Qed.

Lemma others_fresh w ino f :
  locks_have_descriptors w → inodes w !! ino = Some f →
  others (fresh (dom (fds w))) (i_holders f) = i_holders f.
Proof.
  intros Hwf Hf. specialize (Hwf ino f Hf). simpl in Hwf.
  unfold others. induction (i_holders f) as [|[o b] hs IH]; [done|].
  simpl in Hwf. apply andb_true_iff in Hwf as [Ho Hhs].
  rewrite filter_cons_True; [by rewrite IH|].
  simpl. intros ->. unfold descriptor_open in Ho. simpl in Ho.
  apply bool_decide_eq_true in Ho as [x Hx]. by rewrite fresh_fd in Hx.
Qed.

Lemma set_holders_id f : set_holders (i_holders f) f = f.
Proof. by destruct f. Qed.

(** Opening the lock file, probing and closing: on a descriptor table and
    lock table that agree, nothing is left of it. *)
Lemma with_open_probe_restores path q :
  locks_have_descriptors (os q) →
  ∃ r, with_open path O_RDWR probe_lock q = (r, q)
       ∧ match r with Return _ => True | Raise e => is_OSError e = true end.
Proof.
  intros Hwf. unfold with_open. unfold bind at 1. unfold sys at 1.
  destruct (os_open path O_RDWR 438 (os q)) as [[fd|e] w1] eqn:Ho.
  2:{ apply os_open_Err in Ho as ->. rewrite with_os_id. eexists. split; [reflexivity|done]. }
  destruct (os_open_existing _ _ _ _ _ Ho) as (ino & f & Hnm & Hf & Hmay & -> & ->).
  pose proof (others_fresh _ _ _ Hwf Hf) as Hoth.
  pose proof (fresh_fd (os q)) as Hnew.
  set (fd := fresh (dom (fds (os q)))) in *.
  unfold closing, probe_lock. unfold_M. simpl.
  destruct (windows (os q)) eqn:Hw; simpl.
  - unfold msvcrt_locking at 1. simpl. rewrite lookup_insert_eq, Hf. simpl.
    destruct (lock_errno (os q)) as [e|] eqn:He; simpl.
    { unfold os_close. simpl. rewrite lookup_insert_eq, Hf. simpl.
      rewrite Hoth, set_holders_id. unfold update_inode. simpl.
      rewrite insert_id by done. eexists. split; [|shelve].
      f_equal. destruct q as [? ? w ?]. destruct w. simpl in *.
      rewrite delete_insert_id by done. done. }
    destruct (i_holders f) as [|h hs] eqn:Hh; simpl.
    + unfold msvcrt_locking. simpl. rewrite lookup_insert_eq. simpl.
      rewrite lookup_insert_eq. simpl.
      rewrite bool_decide_eq_true_2 by (apply list_elem_of_singleton; done). simpl.
      unfold os_close. simpl. rewrite lookup_insert_eq. simpl. rewrite lookup_insert_eq. simpl.
      rewrite others_own, others_nil. unfold update_inode. simpl.
      rewrite !insert_insert_eq. eexists. split; [|shelve].
      f_equal. destruct q as [? ? w ?]. destruct w. simpl in *.
      rewrite delete_insert_id by done. rewrite insert_id; [done|].
      rewrite Hf. destruct f. simpl in *. by subst.
    + unfold os_close. simpl. rewrite lookup_insert_eq, Hf. simpl.
      rewrite Hh, Hoth. unfold update_inode. simpl.
      rewrite insert_id by (rewrite Hf; destruct f; simpl in *; by subst).
      eexists. split; [|shelve].
      f_equal. destruct q as [? ? w ?]. destruct w. simpl in *.
      rewrite delete_insert_id by done. done.
  - unfold fcntl_flock at 1. simpl. rewrite lookup_insert_eq. simpl.
    unfold os_close. simpl. rewrite lookup_insert_eq, Hf. simpl.
    rewrite Hoth, set_holders_id. unfold update_inode. simpl.
    rewrite insert_id by done. eexists. split; [|shelve].
    f_equal. destruct q as [? ? w ?]. destruct w. simpl in *.
    rewrite delete_insert_id by done. done.
  Unshelve. all: done.
Qed.

Lemma probe_lock_names fd q r q' :
  probe_lock fd q = (r, q') → names (os q') = names (os q).
Proof.
  unfold probe_lock. unfold bind at 1. unfold windows_check, ask.
  destruct (windows (os q)); unfold bind, sys.
  - destruct (msvcrt_locking fd LK_NBLCK 1 (os q)) as [[[]|e] w1] eqn:E1;
      apply msvcrt_locking_frame in E1 as (Hn1 & _); simpl.
    + destruct (msvcrt_locking fd LK_UNLCK 1 w1) as [[[]|e] w2] eqn:E2;
        apply msvcrt_locking_frame in E2 as (Hn2 & _);
        intros; simplify_eq; simpl; congruence.
    + intros; simplify_eq. done.
  - destruct (fcntl_flock fd LOCK_NB (os q)) as [[[]|e] w1] eqn:E1;
      apply fcntl_flock_frame in E1 as (Hn1 & _); simpl.
    + destruct (fcntl_flock fd LOCK_UN w1) as [[[]|e] w2] eqn:E2;
        apply fcntl_flock_frame in E2 as (Hn2 & _);
        intros; simplify_eq; simpl; congruence.
    + intros; simplify_eq. done.
Qed.

(** Whatever the probe finds, it leaves no descriptor behind and neither
    creates nor removes a file. *)
Lemma with_open_probe_frame path q r q' :
  with_open path O_RDWR probe_lock q = (r, q') →
  fds (os q') = fds (os q) ∧ names (os q') = names (os q).
Proof.
  unfold with_open. unfold bind at 1. unfold sys at 1.
  destruct (os_open path O_RDWR 438 (os q)) as [[fd|e] w1] eqn:Ho.
  2:{ apply os_open_Err in Ho as ->. intros; simplify_eq. done. }
  destruct (os_open_existing _ _ _ _ _ Ho) as (ino & f & Hnm & Hf & Hmay & Hfd & ->).
  pose proof (fresh_fd (os q)) as Hnew. rewrite <- Hfd in Hnew.
  unfold closing.
  destruct (probe_lock fd _) as [r1 q1] eqn:Hp.
  destruct (probe_lock_frame _ _ _ _ Hp) as (_ & Hfds & _).
  apply probe_lock_names in Hp as Hnames. simpl in Hfds, Hnames.
  destruct (os_close_Ok fd ino (os q1)) as (w3 & Hcl & Hfds3 & Hnames3 & _).
  { by rewrite Hfds, lookup_insert_eq. }
  unfold bind, sys, ret, raise. rewrite Hcl.
  destruct r1; intros; simplify_eq; simpl;
    rewrite Hfds3, Hnames3, Hfds, Hnames, delete_insert_id by done; done.
Qed.

Lemma exists_running_files self p r p' :
  exists_running self p = (r, p') →
  fds (os p') = fds (os p) ∧ names (os p') = names (os p).
Proof.
  unfold exists_running. unfold bind at 1. unfold this_lock, ask.
  unfold bind at 1.
  destruct (is_locked _ || negb _); [by intros [= <- <-]|].
  unfold try_except, try_except_else. unfold bind at 1.
  destruct (with_open _ _ _ _) as [r1 q] eqn:E.
  apply with_open_probe_frame in E. destruct r1 as [[]|e]; [by intros [= <- <-]|].
  destruct (is_OSError e); by intros [= <- <-].
Qed.

(** X9. [exists_running] only observes: where every lock of this process is
    held through an open descriptor, it leaves the whole state as it was,
    whatever it answers: client objects (their lock path is resolved already),
    files, descriptors, locks, log and clock. *)
Theorem exists_running_only_observes self p :
  locks_have_descriptors (os p) →
  (exists_running self p).2 = p.
Proof.
  intros Hwf.
  unfold exists_running. unfold bind at 1. unfold this_lock, ask.
  unfold bind at 1.
  destruct (is_locked _ || negb _); [done|].
  unfold try_except, try_except_else. unfold bind at 1.
  destruct (with_open_probe_restores (lockfile (lock_clients p self)) p Hwf) as (r & -> & Hr).
  destruct r as [[]|e]; [done|]. by rewrite Hr.
Qed.

Lemma exists_running_only_observes_witness :
  (exists_running 1%nat (holding true)).2 = holding true.
Proof.
  apply exists_running_only_observes. apply (bool_decide_unpack _). vm_compute. exact I.
Defined.

(** X10. On Windows, for a client that does not hold the lock and a lock file
    that exists, [exists_running] is [False] exactly when the file may be
    opened for reading and writing, the file system accepts locks and nobody
    holds a lock on the file. *)
Theorem exists_running_windows self p ino f :
  windows (os p) = true →
  is_locked (lock_clients p self) = false →
  names (os p) !! lockfile (lock_clients p self) = Some ino →
  inodes (os p) !! ino = Some f →
  (exists_running self p).1
  = Return (negb (may_open O_RDWR f && bool_decide (lock_errno (os p) = None)
                  && bool_decide (i_holders f = []))).
Proof.
  intros Hw Hc Hnm Hf.
  assert (path_exists (lockfile (lock_clients p self)) (os p) = true) as Hex.
  { apply path_exists_true. rewrite Hnm. eauto. }
  unfold exists_running, with_open, closing, probe_lock. unfold_M. simpl.
  rewrite Hc, Hex. simpl. unfold os_open. rewrite Hnm, Hf.
  change (has_flag O_CREAT O_RDWR) with false. simpl.
  destruct (may_open O_RDWR f); simpl; [|done].
  rewrite Hw. simpl. unfold msvcrt_locking at 1. simpl. rewrite lookup_insert_eq, Hf. simpl.
  destruct (lock_errno (os p)) as [e|] eqn:He; simpl.
  { unfold os_close. simpl. rewrite lookup_insert_eq, Hf. done. }
  destruct (i_holders f) as [|h hs] eqn:Hh; simpl.
  - unfold msvcrt_locking. simpl. rewrite lookup_insert_eq. simpl.
    rewrite lookup_insert_eq. simpl.
    rewrite bool_decide_eq_true_2 by (apply list_elem_of_singleton; done). simpl.
    unfold os_close. simpl. rewrite lookup_insert_eq. simpl. rewrite lookup_insert_eq. done.
  - unfold os_close. simpl. rewrite lookup_insert_eq, Hf. done.
Qed.

Lemma exists_running_windows_witness :
  (exists_running 0%nat (start (contended true))).1
  = Return (negb (may_open O_RDWR {| i_mode := 420; i_owned := true;
                                     i_holders := [(Foreign, true)] |}
                  && bool_decide (lock_errno (contended true) = None)
                  && bool_decide ([(Foreign, true)] = @nil (owner * bool)))).
Proof.
  apply (exists_running_windows 0%nat (start (contended true)) 1%nat); reflexivity.
Defined.

(** X11. On POSIX, for a client that does not hold the lock, [exists_running]
    is whether the lock file exists: the probe asks [flock] for [LOCK_NB]
    alone, which is refused whatever the state of the file. *)
Theorem exists_running_posix_file_exists self p :
  windows (os p) = false →
  is_locked (lock_clients p self) = false →
  (exists_running self p).1
  = Return (path_exists (lockfile (lock_clients p self)) (os p)).
Proof.
  intros Hw Hc.
  destruct (path_exists (lockfile (lock_clients p self)) (os p)) eqn:Hex.
  - by apply exists_running_posix.
  - by rewrite exists_running_no_file.
Qed.

Lemma exists_running_posix_file_exists_witness :
  (exists_running 0%nat (start (orphaned false))).1
  = Return (path_exists lock_path (orphaned false)).
Proof.
  apply (exists_running_posix_file_exists 0%nat (start (orphaned false))); reflexivity.
Defined.

(** ** Waiting *)

(** X12. When the client holds the lock itself, or there is no lock file,
    [wait] returns [True] at its first poll for every timeout and every
    interval, a negative one too: it has logged its debug line and done
    nothing else. *)
Theorem wait_nothing_running fuel self timeout interval p :
  is_locked (lock_clients p self) = true
  ∨ path_exists (lockfile (lock_clients p self)) (os p) = false →
  wait (S fuel) self timeout interval p = (Return (Some true), waiting p).
Proof.
  intros H. rewrite wait_eq. simpl wait_loop. unfold bind at 1.
  assert (exists_running self (waiting p) = (Return false, waiting p)) as ->; [|done].
  destruct H; [by apply exists_running_held|by apply exists_running_no_file].
Qed.

Lemma wait_nothing_running_witness :
  wait 1 0%nat (Some 0) (-1) (holding false) = (Return (Some true), waiting (holding false))
  ∧ wait 1 0%nat None 1000 (start (boot true))
    = (Return (Some true), waiting (start (boot true))).
Proof.
  split.
  - apply (wait_nothing_running 0 0%nat (Some 0) (-1) (holding false)). left. reflexivity.
  - apply (wait_nothing_running 0 0%nat None 1000 (start (boot true))). right. reflexivity.
Defined.

(** X13. With a timeout of zero or less [wait] polls once and never sleeps: it
    returns the negation of what [exists_running] answers, and the clock is
    where it was. *)
Theorem wait_without_patience fuel self limit interval p :
  limit ≤ 0 →
  ∃ b p', exists_running self (waiting p) = (Return b, p')
    ∧ wait (S fuel) self (Some limit) interval p = (Return (Some (negb b)), p')
    ∧ now (os p') = now (os p).
Proof.
  intros Hl.
  destruct (exists_running_frame self (waiting p)) as (b & p' & E & _ & Ht & _).
  exists b, p'. split; [done|]. split; [|done].
  rewrite wait_eq. simpl wait_loop. unfold bind at 1. rewrite E.
  destruct b; [|done].
  unfold bind, monotonic, ask, time_monotonic. rewrite Ht. simpl.
  by rewrite Z.sub_diag, (proj2 (Z.leb_le _ _) Hl).
Qed.

Lemma wait_without_patience_witness :
  ∃ b p', exists_running 0%nat (waiting (start (contended true))) = (Return b, p')
    ∧ wait 1 0%nat (Some 0) 100 (start (contended true)) = (Return (Some (negb b)), p')
    ∧ now (os p') = now (os (start (contended true))).
Proof. apply (wait_without_patience 0 0%nat 0 100 (start (contended true))). lia. Defined.

(** X14. With a negative interval and no timeout, [wait] raises
    [ValueError] (it comes from [time.sleep]) when its first poll sees
    another instance. *)
Theorem wait_negative_interval fuel self interval p :
  interval < 0 →
  (exists_running self (waiting p)).1 = Return true →
  (wait (S fuel) self None interval p).1 = Raise ValueError.
Proof.
  intros Hi Hr.
  destruct (exists_running_frame self (waiting p)) as (b & p' & E & _ & Hs & _).
  rewrite E in Hr. simpl in Hr. simplify_eq.
  rewrite wait_eq. simpl wait_loop. unfold bind at 1. rewrite E.
  unfold bind at 1. unfold monotonic, ask, time_monotonic. simpl.
  unfold bind, sleep, time_sleep. by rewrite (proj2 (Z.ltb_lt _ _) Hi).
Qed.

Lemma wait_negative_interval_witness :
  (wait 1 0%nat None (-100) (start (contended true))).1 = Raise ValueError.
Proof.
  apply (wait_negative_interval 0 0%nat (-100) (start (contended true)));
    [lia | reflexivity].
Defined.

(** A file that no other process is going to remove stays. *)
Lemma apply_event_keeps path w ev :
  ev ≠ TheyUnlink path →
  is_Some (names w !! path) → is_Some (names (apply_event w ev) !! path).
Proof.
  intros Hev Hsome. destruct ev as [path' mode|path'|path'|path']; simpl;
    repeat case_match; simpl; try done.
  - apply lookup_insert_is_Some. destruct (decide (path' = path)); auto.
  - rewrite lookup_delete_ne; [done|]. congruence.
Qed.

Lemma foldl_apply_event_keeps path evs : ∀ w,
  Forall (λ ev, ev ≠ TheyUnlink path) evs →
  is_Some (names w !! path) → is_Some (names (foldl apply_event w evs) !! path).
Proof.
  induction evs as [|ev evs IH]; intros w Hall Hsome; simpl; [done|].
  inversion Hall; subst. apply IH; [done|]. by apply apply_event_keeps.
Qed.

Lemma advance_keeps path d w :
  (∀ t, (t, TheyUnlink path) ∉ pending w) →
  is_Some (names w !! path) →
  is_Some (names (advance d w) !! path)
  ∧ ∀ t, (t, TheyUnlink path) ∉ pending (advance d w).
Proof.
  intros Hno Hsome. unfold advance. simpl. split.
  - apply foldl_apply_event_keeps; [|done].
    apply Forall_fmap, Forall_forall. intros [t ev] Hin%list_elem_of_In%list_elem_of_filter.
    simpl. intros ->. by apply (Hno t), Hin.
  - intros t Hin%list_elem_of_filter. by apply (Hno t), Hin.
Qed.

Section wait_posix.
Variables (self : loc) (interval start : Z) (path : string).
Hypothesis interval_nonneg : 0 ≤ interval.

Lemma stuck_next_poll q : stuck self path q → stuck self path (next_poll self interval q).
Proof.
  intros (Hw & Hc & Hp & Hsome & Hno). unfold next_poll.
  destruct (exists_running_frame self q) as (b & q' & E & Hq' & (Hnow & Hpend & Hwin)).
  destruct (exists_running_files _ _ _ _ E) as [_ Hnames].
  assert (lock_clients q' = lock_clients q) as Hlc by (by rewrite Hq').
  rewrite E. cbn [snd]. rewrite (sleep_interval interval interval_nonneg). cbn [snd].
  destruct (advance_frame interval (os q')) as (_ & _ & _ & Hw' & _).
  destruct (advance_keeps path interval (os q')) as [Hsome' Hno'].
  { by rewrite Hpend. }
  { by rewrite Hnames. }
  unfold stuck.
  change (os (with_os (advance interval (os q')) q')) with (advance interval (os q')).
  change (lock_clients (with_os (advance interval (os q')) q')) with (lock_clients q').
  rewrite Hlc. split_and!; try done. congruence.
Qed.

Lemma stuck_wait_loop fuel : ∀ q,
  stuck self path q → (wait_loop fuel self None interval start q).1 = Return None.
Proof.
  induction fuel as [|fuel IH]; intros q Hq; [done|].
  rewrite (wait_loop_step self None interval start interval_nonneg).
  destruct Hq as (Hw & Hc & Hp & Hsome & Hno).
  assert (observes self interval q 0 = true) as ->.
  { unfold observes. simpl poll_state.
    rewrite (exists_running_posix self q Hw Hc); [done|].
    apply path_exists_true. by rewrite Hp. }
  simpl expired. cbv iota. apply IH, stuck_next_poll. done.
Qed.
End wait_posix.

(** X15. On POSIX, while the lock file stays in place (no other process
    removes it) and the client does not hold the lock, [wait] without a
    timeout does not return: no number of rounds of its loop is enough. *)
Theorem wait_posix_never_returns self interval p :
  0 ≤ interval →
  windows (os p) = false →
  is_locked (lock_clients p self) = false →
  path_exists (lockfile (lock_clients p self)) (os p) = true →
  (∀ t, (t, TheyUnlink (lockfile (lock_clients p self))) ∉ pending (os p)) →
  ∀ fuel, (wait fuel self None interval p).1 = Return None.
Proof.
  intros Hi Hw Hc Hex Hno fuel. rewrite wait_eq.
  apply (stuck_wait_loop self interval (now (os p)) (lockfile (lock_clients p self)) Hi).
  split_and!; try done. by apply path_exists_true.
Qed.

Lemma wait_posix_never_returns_witness :
  (wait 1000 0%nat None 1000 (start (orphaned false))).1 = Return None.
Proof.
  apply (wait_posix_never_returns 0%nat 1000 (start (orphaned false)));
    [lia | reflexivity | reflexivity | reflexivity |].
  intros t Hin. simpl in Hin. by apply not_elem_of_nil in Hin.
Defined.

(** ** The address of the socket *)

(** What resolving the address gives, as a function of the client, the
    platform and the environment. *)
Lemma socket_path_result self p :
  (socket_path self p).1 =
    match socket_path_cache (socket_clients p self) with
    | Some path => Return path
    | None =>
        match populated (default_path (socket_clients p self)) with
        | Some path => Return path
        | None =>
            if windows (os p) then Return ("\\.\pipe\" +:+ name (socket_clients p self))
            else
              match first_populated [environ (os p) !! "XDG_RUNTIME_DIR";
                                     environ (os p) !! "HOME";
                                     environ (os p) !! "TMPDIR"] with
              | Some dir => Return (Path_div dir ("." +:+ name (socket_clients p self)))
              | None => Raise SocketPathError
              end
        end
    end.
Proof.
  unfold socket_path, socket_path_body. unfold bind at 1. unfold this_socket at 1, ask.
  destruct (socket_path_cache (socket_clients p self)) as [path|]; [done|].
  unfold bind at 1.
  destruct (default_path (socket_clients p self)) as [[|a s]|]; cbn [populated]; try done.
  all: unfold bind at 1; unfold windows_check, ask; destruct (windows (os p)); [done|].
  all: rewrite first_base_dir_spec; simpl fmap; by destruct (first_populated _).
Qed.

(** X16. Resolving the address raises exactly when nothing is cached,
    [default_path] is [None] or empty, the platform is not Windows and none
    of [XDG_RUNTIME_DIR], [HOME] and [TMPDIR] is set to a non-empty
    value. *)
Theorem socket_path_raises_iff self p :
  (∃ e, (socket_path self p).1 = Raise e) ↔
    socket_path_cache (socket_clients p self) = None
    ∧ populated (default_path (socket_clients p self)) = None
    ∧ windows (os p) = false
    ∧ first_populated [environ (os p) !! "XDG_RUNTIME_DIR";
                       environ (os p) !! "HOME";
                       environ (os p) !! "TMPDIR"] = None.
Proof.
  rewrite socket_path_result.
  destruct (socket_path_cache _); [split; [by intros [? ?]|by intros [? ?]]|].
  destruct (populated _); [split; [by intros [? ?]|by intros (?&?&?)]|].
  destruct (windows _); [split; [by intros [? ?]|by intros (?&?&?&?)]|].
  destruct (first_populated _); [split; [by intros [? ?]|by intros (?&?&?&?)]|].
  split; [done|]. intros _. eauto.
Qed.

(** X17. Once [socket_path] has been resolved it stays: whatever becomes of the
    operating system (the environment, the platform) and of the client's
    [name] and [default_path], the same address is returned and nothing
    changes. *)
Theorem socket_path_is_cached self p path p1 :
  socket_path self p = (Return path, p1) →
  ∀ w name' default_path',
    let p2 := with_socket_clients
                (<[self := {| name := name';
                              default_path := default_path';
                              _pipe := _pipe (socket_clients p1 self);
                              socket_path_cache := socket_path_cache (socket_clients p1 self) |}]>
                   (socket_clients p1))
                (with_os w p1) in
    socket_path self p2 = (Return path, p2).
Proof.
  intros Hs w name' default_path' p2.
  destruct (socket_path_frame _ _ _ _ Hs) as (_ & _ & _ & _ & Hc).
  apply socket_path_cached. subst p2. simpl. rewrite fn_lookup_insert. done.
Qed.

Lemma socket_path_is_cached_witness :
  let p1 := (socket_path 0%nat (start (at_home []))).2 in
  let p2 := with_socket_clients
              (<[0%nat := {| name := "other"; default_path := Some "/run/other.sock";
                             _pipe := _pipe (socket_clients p1 0%nat);
                             socket_path_cache := socket_path_cache (socket_clients p1 0%nat) |}]>
                 (socket_clients p1))
              (with_os (boot true) p1) in
  socket_path 0%nat p2 = (Return "/home/user/.app", p2).
Proof.
  apply (socket_path_is_cached 0%nat (start (at_home [])) "/home/user/.app" _ eq_refl
           (boot true) "other" (Some "/run/other.sock")).
Defined.

(** Joining a directory with ['.'] gives the directory: [pathlib] drops the
    component. *)
Lemma Path_div_dot comps :
  forallb plain comps = true →
  Path_div (absolute comps) "." = absolute comps.
Proof.
  intros Hall. destruct (decide (comps = [])) as [->|Hne]; [reflexivity|].
  unfold Path_div.
  assert (ends_with_sep (absolute comps) = false) as Hend.
  { unfold absolute.
    destruct comps as [|x comps _] using rev_ind; [done|].
    rewrite forallb_app in Hall. apply andb_true_iff in Hall as [_ Hx].
    simpl in Hx. apply andb_true_iff in Hx as [Hx _].
    apply plain_no_sep in Hx as (Hx & Hx' & _).
    destruct comps as [|y comps].
    - simpl app. simpl String.concat. rewrite ends_with_sep_app by done.
      by apply ends_with_sep_plain.
    - rewrite concat_snoc by done. rewrite <- !string_app_assoc.
      rewrite ends_with_sep_app by done. by apply ends_with_sep_plain. }
  assert (posixpath_join (absolute comps) "."
          = "/" +:+ String.concat "/" (comps ++ ["."])) as ->.
  { unfold posixpath_join. change (starts_with_sep ".") with false. cbv iota.
    rewrite Hend, orb_false_r. rewrite bool_decide_eq_false_2 by done.
    unfold absolute. rewrite concat_snoc by done. by rewrite !string_app_assoc. }
  unfold PurePosixPath_str.
  assert (∃ c rest, String.concat "/" (comps ++ ["."]) = String c rest
                    ∧ c ≠ "/"%char) as (c & rest & Hc & Hsep).
  { destruct comps as [|x comps]; [done|].
    simpl in Hall. apply andb_true_iff in Hall as [Hx _].
    apply plain_no_sep in Hx as (Hx & Hx' & _).
    destruct x as [|c x]; [done|]. simpl in Hx. apply andb_true_iff in Hx as [Hc _].
    apply negb_true_iff, bool_decide_eq_false in Hc.
    destruct comps; simpl; eauto. }
  assert (splitroot ("/" +:+ String.concat "/" (comps ++ ["."]))
          = ("/", String.concat "/" (comps ++ ["."]))) as ->.
  { rewrite Hc. change ("/" +:+ String c rest) with (String "/" (String c rest)).
    simpl. repeat case_match; simplify_eq; done. }
  unfold path_tail. rewrite split_sep_concat; [|by destruct comps|].
  2:{ rewrite forallb_app. rewrite (forallb_plain_no_sep _ Hall). done. }
  rewrite list.filter_app, filter_plain by done.
  rewrite filter_cons_False by (intros [_ H]; by apply H).
  rewrite filter_nil, app_nil_r. simpl. done.
Qed.

(** X18. With an empty [name] the address on POSIX is the base directory
    itself: [pathlib] drops the ['.'] component that ['.' + name] then
    is. *)
Theorem socket_path_empty_name self p comps :
  socket_path_cache (socket_clients p self) = None →
  populated (default_path (socket_clients p self)) = None →
  windows (os p) = false →
  name (socket_clients p self) = "" →
  first_populated [environ (os p) !! "XDG_RUNTIME_DIR";
                   environ (os p) !! "HOME";
                   environ (os p) !! "TMPDIR"] = Some (absolute comps) →
  forallb plain comps = true →
  (socket_path self p).1 = Return (absolute comps).
Proof.
  intros Hca Hd Hw Hn He Hall.
  rewrite socket_path_result, Hca, Hd, Hw, He, Hn.
  change ("." +:+ "") with ".". by rewrite Path_div_dot.
Qed.

Lemma socket_path_empty_name_witness :
  (socket_path 0%nat
     {| lock_clients := λ _, new_LockClient;
        socket_clients := λ _, new_SocketClient "";
        os := at_home [];
        logged := [] |}).1
  = Return (absolute ["home"; "user"]).
Proof.
  apply (socket_path_empty_name 0%nat
           {| lock_clients := λ _, new_LockClient;
              socket_clients := λ _, new_SocketClient "";
              os := at_home [];
              logged := [] |} ["home"; "user"]); reflexivity.
Defined.

(** ** Connecting and disconnecting *)

(** X19. [connect] on a client that is not connected, whose address resolves to
    an endpoint somebody listens on, connects: it returns the guard, the
    client holds a transport (a pipe on Windows, a socket elsewhere) that did
    not exist before and is connected to the address, the address is cached,
    and two debug lines are logged. *)
Theorem connect_establishes self p path p1 :
  is_connect (socket_clients p self) = false →
  socket_path self p = (Return path, p1) →
  endpoints (os p) !! path = Some Listening →
  ∃ id p', connect self p = (Return {| socket := self |}, p')
    ∧ _pipe (socket_clients p' self) = Some (if windows (os p) then Pipe id else Socket id)
    ∧ conns (os p) !! id = None
    ∧ conns (os p') !! id = Some {| c_peer := Some path; c_close_errno := None |}
    ∧ socket_path_cache (socket_clients p' self) = Some path
    ∧ logged p' = logged p ++ [(Debug, "Attempting to connecting socket");
                               (Debug, "Socket connection established")].
Proof.
  intros Hc Hs He.
  destruct (connect_listening self p path p1 Hc Hs He) as (p' & E & Hp & Hca & Hos & _ & Hlog).
  exists (fresh (dom (conns (os p)))), p'. split_and!; try done.
  - apply fresh_conn.
  - rewrite Hos. simpl. by rewrite lookup_insert_eq.
Qed.

Lemma connect_establishes_witness :
  ∃ id p', connect 0%nat (start (at_home [("/home/user/.app", Listening)]))
           = (Return {| socket := 0%nat |}, p')
    ∧ _pipe (socket_clients p' 0%nat) = Some (Socket id)
    ∧ conns (at_home [("/home/user/.app", Listening)]) !! id = None
    ∧ conns (os p') !! id = Some {| c_peer := Some "/home/user/.app"; c_close_errno := None |}
    ∧ socket_path_cache (socket_clients p' 0%nat) = Some "/home/user/.app"
    ∧ logged p' = [] ++ [(Debug, "Attempting to connecting socket");
                         (Debug, "Socket connection established")].
Proof.
  apply (connect_establishes 0%nat (start (at_home [("/home/user/.app", Listening)]))
           "/home/user/.app" _ eq_refl eq_refl eq_refl).
Defined.

(** X20. Connecting and leaving the guard's scope: [connect] succeeds, the
    [disconnect] of [ConnectSocket.__exit__] returns without raising, the
    client is not connected any more, the operating system is as it was
    before [connect] (no transport is left open), and the four debug lines
    are logged in order. *)
Theorem connect_disconnect_round_trip self p path p1 :
  is_connect (socket_clients p self) = false →
  socket_path self p = (Return path, p1) →
  endpoints (os p) !! path = Some Listening →
  ∃ guard p2 p3,
    connect self p = (Return guard, p2)
    ∧ is_connect (socket_clients p2 self) = true
    ∧ ConnectSocket_exit guard p2 = (Return tt, p3)
    ∧ is_connect (socket_clients p3 self) = false
    ∧ os p3 = os p
    ∧ logged p3 = logged p ++ [(Debug, "Attempting to connecting socket");
                               (Debug, "Socket connection established");
                               (Debug, "Disconnecting socket");
                               (Debug, "Socket disconnected successfully")].
Proof.
  intros Hc Hs He.
  destruct (connect_listening self p path p1 Hc Hs He)
    as (p2 & E & Hp & Hca & Hos & _ & Hlog).
  set (id := fresh (dom (conns (os p)))) in *.
  set (t := if windows (os p) then Pipe id else Socket id) in *.
  destruct (disconnect_connected self p2 t path p2 Hp (socket_path_cached _ _ _ Hca))
    as (p3 & Hd & Hos3 & Hres).
  assert (transport_close t (os p2) = (Ok tt, os p)) as Hcl.
  { rewrite Hos. unfold transport_close.
    assert (match t with Socket i => i | Pipe i => i end = id) as ->
      by (subst t; by destruct (windows (os p))).
    simpl. rewrite lookup_insert_eq. simpl.
    rewrite delete_insert_id by apply fresh_conn.
    assert (set_conns (conns (os p)) (set_conns (<[id := {| c_peer := Some path;
              c_close_errno := None |}]> (conns (os p))) (os p)) = os p) as ->
      by (by destruct (os p)).
    subst t. by destruct (windows (os p)). }
  rewrite Hcl in Hos3, Hres. simpl in Hos3, Hres. destruct Hres as [Hn Hlog3].
  exists {| socket := self |}, p2, p3. split_and!; try done.
  - unfold is_connect. by rewrite Hp.
  - rewrite Hlog3, Hlog, <- app_assoc. done.
Qed.

Lemma connect_disconnect_round_trip_witness :
  ∃ guard p2 p3,
    connect 0%nat (start (at_home [("/home/user/.app", Listening)])) = (Return guard, p2)
    ∧ is_connect (socket_clients p2 0%nat) = true
    ∧ ConnectSocket_exit guard p2 = (Return tt, p3)
    ∧ is_connect (socket_clients p3 0%nat) = false
    ∧ os p3 = at_home [("/home/user/.app", Listening)]
    ∧ logged p3 = [] ++ [(Debug, "Attempting to connecting socket");
                         (Debug, "Socket connection established");
                         (Debug, "Disconnecting socket");
                         (Debug, "Socket disconnected successfully")].
Proof.
  apply (connect_disconnect_round_trip 0%nat
           (start (at_home [("/home/user/.app", Listening)]))
           "/home/user/.app" _ eq_refl eq_refl eq_refl).
Defined.

(** X21. Where the address cannot be determined, [connect] raises
    [SocketPathError] before it does or logs anything: the state is the one
    it was called in.  So does entering a [with] block on the client. *)
Theorem connect_without_address self p :
  is_connect (socket_clients p self) = false →
  socket_path_cache (socket_clients p self) = None →
  populated (default_path (socket_clients p self)) = None →
  windows (os p) = false →
  first_populated [environ (os p) !! "XDG_RUNTIME_DIR";
                   environ (os p) !! "HOME";
                   environ (os p) !! "TMPDIR"] = None →
  connect self p = (Raise SocketPathError, p)
  ∧ SocketClient_enter self p = (Raise SocketPathError, p).
Proof.
  intros Hc Hca Hd Hw Hn.
  assert (connect self p = (Raise SocketPathError, p)) as E.
  { destruct (socket_path self p) as [r p1] eqn:Hs.
    pose proof (socket_path_result self p) as Hr. rewrite Hs, Hca, Hd, Hw, Hn in Hr.
    simpl in Hr. subst r. by apply (connect_no_address self p SocketPathError p1). }
  split; [done|]. unfold SocketClient_enter, bind. by rewrite E.
Qed.

Lemma connect_without_address_witness :
  connect 0%nat (start (boot false)) = (Raise SocketPathError, start (boot false))
  ∧ SocketClient_enter 0%nat (start (boot false)) = (Raise SocketPathError, start (boot false)).
Proof. apply (connect_without_address 0%nat (start (boot false))); reflexivity. Defined.

(** ** Sending *)

Lemma transport_send_world t data w : (transport_send t data w).2 = w.
Proof. unfold transport_send. by repeat case_match. Qed.

Section send.
Variables (self : loc) (p : process) (line : list Z).
Let c := socket_clients p self.

Lemma send_not_connected : _pipe c = None → send self line p = (Return tt, p).
Proof. unfold send. unfold_S. simpl. fold c. by intros ->. Qed.

(** [send] on a client that has a transport and knows its address. *)
Lemma send_connected pipe path :
  _pipe c = Some pipe →
  socket_path_cache c = Some path →
  send self line p =
    (Return tt,
     with_logged
       (logged p ++
          match encode_utf8 line with
          | None => [(Exception, "Failed to send data over socket")]
          | Some data =>
              (Debug, "Sending data over socket")
              :: match (transport_send pipe data (os p)).1 with
                 | Return _ => [(Debug, "Data sent successfully")]
                 | Raise _ => [(Exception, "Failed to send data over socket")]
                 end
          end) p).
Proof.
  intros Hp Hc.
  assert (∀ q, socket_clients q = socket_clients p → socket_path self q = (Return path, q))
    as Hs.
  { intros q Hq. apply socket_path_cached. by rewrite Hq. }
  unfold send. unfold bind at 1. unfold this_socket at 1, ask. fold c. rewrite Hp.
  unfold try_except_else. unfold bind at 1. unfold str_encode.
  destruct (encode_utf8 line) as [data|]; unfold ret, raise.
  - unfold bind at 1. rewrite (Hs p eq_refl). unfold bind at 1. unfold log at 1.
    cbn [os with_logged].
    pose proof (transport_send_world pipe data (os p)) as Hw.
    destruct (transport_send pipe data (os p)) as [[n|e] w]; simpl in Hw; subst w;
      cbn [is_Exception fst]; unfold bind at 1; rewrite Hs by done; unfold log; simpl;
      by rewrite <- app_assoc.
  - cbn [is_Exception]. unfold bind at 1. rewrite (Hs p eq_refl). unfold log. simpl. done.
Qed.
End send.

(** X22. [send] on a client that is not connected does nothing.  On a client
    that has a transport and knows its address it raises nothing and leaves
    the client objects as they are, whatever happens: a text that cannot be
    encoded is logged as a failure before anything is sent, and otherwise
    'Sending data over socket' is followed by 'Data sent successfully' or, if
    the transport raised, by 'Failed to send data over socket'. *)
Theorem send_never_raises self p line :
  (_pipe (socket_clients p self) = None → send self line p = (Return tt, p))
  ∧ (∀ pipe path,
       _pipe (socket_clients p self) = Some pipe →
       socket_path_cache (socket_clients p self) = Some path →
       ∃ p', send self line p = (Return tt, p')
         ∧ socket_clients p' = socket_clients p
         ∧ logged p'
           = logged p ++
             match encode_utf8 line with
             | None => [(Exception, "Failed to send data over socket")]
             | Some data =>
                 (Debug, "Sending data over socket")
                 :: match (transport_send pipe data (os p)).1 with
                    | Return _ => [(Debug, "Data sent successfully")]
                    | Raise _ => [(Exception, "Failed to send data over socket")]
                    end
             end).
Proof.
  split; [apply send_not_connected|].
  intros pipe path Hp Hc. rewrite (send_connected self p line pipe path Hp Hc).
  eexists. split; [reflexivity|]. done.
Qed.

(** [disconnect] when the close fails. *)
Lemma disconnect_close_fails self p pipe path e w' :
  _pipe (socket_clients p self) = Some pipe →
  socket_path_cache (socket_clients p self) = Some path →
  transport_close pipe (os p) = (Err e, w') →
  disconnect self p =
    (Return tt,
     with_logged (logged p ++ [(Debug, "Disconnecting socket");
                               (Exception, "Socket close failed")]) (with_os w' p)).
Proof.
  intros Hp Hc Hcl.
  unfold disconnect. unfold bind at 1. unfold this_socket at 1, ask. rewrite Hp.
  unfold bind at 1. rewrite (socket_path_cached _ _ _ Hc). unfold bind at 1. unfold log at 1.
  unfold try_except_else. unfold sys at 1. simpl. rewrite Hcl. simpl.
  unfold log. simpl. by rewrite <- app_assoc.
Qed.

(** X23. After a [disconnect] whose close failed the client still counts as
    connected: [connect] is then a no-op, and [send] of a text that can be
    encoded raises nothing, logs the attempt and its failure, and leaves the
    client connected still. *)
Theorem send_after_failed_close self p pipe path e w' line data :
  _pipe (socket_clients p self) = Some pipe →
  socket_path_cache (socket_clients p self) = Some path →
  transport_close pipe (os p) = (Err e, w') →
  encode_utf8 line = Some data →
  ∃ p1 p2,
    disconnect self p = (Return tt, p1)
    ∧ is_connect (socket_clients p1 self) = true
    ∧ connect self p1 = (Return {| socket := self |}, p1)
    ∧ send self line p1 = (Return tt, p2)
    ∧ is_connect (socket_clients p2 self) = true
    ∧ logged p2 = logged p ++ [(Debug, "Disconnecting socket");
                               (Exception, "Socket close failed");
                               (Debug, "Sending data over socket");
                               (Exception, "Failed to send data over socket")].
Proof.
  intros Hp Hc Hcl He.
  rewrite (disconnect_close_fails self p pipe path e w' Hp Hc Hcl).
  eexists _, _. split; [reflexivity|].
  match goal with |- context [send self line ?q] => set (p1 := q) end.
  rewrite (send_connected self p1 line pipe path Hp Hc), He.
  assert (∃ x, (transport_send pipe data w').1 = Raise x) as [x Hx].
  { pose proof (transport_close_gone _ _ _ _ Hcl) as Hgone.
    unfold transport_send. destruct pipe; simpl in Hgone; rewrite Hgone; eauto. }
  subst p1. cbn [os with_logged with_os]. rewrite Hx.
  split_and!; [| |reflexivity| |];
    try apply connect_connected; unfold is_connect; simpl; rewrite ?Hp, <- ?app_assoc; done.
Qed.

Lemma send_after_failed_close_witness :
  ∃ p1 p2,
    disconnect 0%nat broken_pipe = (Return tt, p1)
    ∧ is_connect (socket_clients p1 0%nat) = true
    ∧ connect 0%nat p1 = (Return {| socket := 0%nat |}, p1)
    ∧ send 0%nat [104; 105] p1 = (Return tt, p2)
    ∧ is_connect (socket_clients p2 0%nat) = true
    ∧ logged p2 = [] ++ [(Debug, "Disconnecting socket");
                         (Exception, "Socket close failed");
                         (Debug, "Sending data over socket");
                         (Exception, "Failed to send data over socket")].
Proof.
  apply (send_after_failed_close 0%nat broken_pipe (Pipe 3) "\\.\pipe\app" EIO
           (transport_close (Pipe 3) (os broken_pipe)).2 [104; 105] [104; 105]);
    reflexivity.
Defined.

Lemma send_never_raises_witness :
  send 0%nat [104; 105] (start (boot true)) = (Return tt, start (boot true))
  ∧ (∃ p', send 0%nat [104; 105] broken_pipe = (Return tt, p')
       ∧ socket_clients p' = socket_clients broken_pipe
       ∧ logged p' = [(Debug, "Sending data over socket"); (Debug, "Data sent successfully")])
  ∧ (∃ p', send 0%nat [104; 55296] broken_pipe = (Return tt, p')
       ∧ socket_clients p' = socket_clients broken_pipe
       ∧ logged p' = [(Exception, "Failed to send data over socket")]).
Proof.
  split; [|split].
  - apply (proj1 (send_never_raises 0%nat (start (boot true)) [104; 105])). reflexivity.
  - apply (proj2 (send_never_raises 0%nat broken_pipe [104; 105]) (Pipe 3) "\\.\pipe\app");
      reflexivity.
  - apply (proj2 (send_never_raises 0%nat broken_pipe [104; 55296]) (Pipe 3) "\\.\pipe\app");
      reflexivity.
Defined.

(** ** Validating [default_path] *)

Lemma rstrip_empty s : rstrip isspace s = "" ↔ blank s = true.
Proof.
  induction s as [|c s IH]; [done|]. simpl.
  destruct (rstrip isspace s) eqn:E.
  - destruct (isspace c); simpl; [|split; done].
    split; [intros _; by apply IH|done].
  - split; [done|]. intros [_ H]%andb_true_iff. apply IH in H. done.
Qed.

Lemma blank_lstrip s : blank (lstrip s) = blank s.
Proof.
  induction s as [|c s IH]; [done|]. simpl.
  destruct (isspace c) eqn:E; [done|]. simpl. by rewrite E.
Qed.

Lemma strip_empty s : strip s = "" ↔ blank s = true.
Proof. unfold strip. by rewrite rstrip_empty, blank_lstrip. Qed.

Lemma lower_rstrip chars s : lower (rstrip chars s) = s → rstrip chars s = s.
Proof.
  induction s as [|c s IH]; [done|]. simpl.
  destruct (rstrip chars s) eqn:E.
  - destruct (chars c); simpl; [done|]. intros [= _ <-]. done.
  - simpl. intros [= _ H]. f_equal. apply IH. done.
Qed.

Lemma rstrip_backslash s : rstrip is_backslash s = s ↔ ends_with_backslash s = false.
Proof.
  induction s as [|c s IH]; [done|]. simpl.
  destruct s as [|c' s'].
  - simpl. destruct (is_backslash c); split; done.
  - destruct (rstrip is_backslash (String c' s')) eqn:E.
    + split.
      * destruct (is_backslash c); [done|]. intros [= ?].
      * intros H. apply IH in H. done.
    + rewrite <- IH. split; [by intros [= -> ->]|by intros [= -> ->]].
Qed.

Lemma startswith_not_blank s : startswith s "\\.\pipe" = true → blank s = false.
Proof.
  destruct s as [|c s]; [done|]. cbn [startswith].
  destruct (Ascii.eqb_spec "\" c) as [<-|?]; [intros _; reflexivity|done].
Qed.

(** X24. What the validator of [default_path] accepts, for values in ASCII.
    [None] always.  On Windows a string exactly when it starts with
    [\\.\pipe], has no upper-case letter and does not end in a backslash.
    Elsewhere a string exactly when it is not blank (empty or white space
    only) and is not the path of a directory. *)
Theorem validate_default_path_accepts is_dir value w :
  ascii_only value = true →
  validate_default_path is_dir None w = Passes
  ∧ (windows w = true →
     (validate_default_path is_dir (Some value) w = Passes ↔
        startswith value "\\.\pipe" = true
        ∧ lower value = value
        ∧ ends_with_backslash value = false))
  ∧ (windows w = false →
     (validate_default_path is_dir (Some value) w = Passes ↔
        blank value = false ∧ is_dir value w = false)).
Proof.
  intros _. split; [done|]. unfold validate_default_path. split; intros ->.
  - destruct (bool_decide (strip value = "")) eqn:Eb.
    { apply bool_decide_eq_true, strip_empty in Eb. split; [done|].
      intros (Hs%startswith_not_blank & _). congruence. }
    destruct (bool_decide (lower (rstrip is_backslash value) = value)) eqn:En; simpl.
    + apply bool_decide_eq_true in En. pose proof (lower_rstrip _ _ En) as Hr.
      rewrite Hr in En |- *. apply rstrip_backslash in Hr.
      destruct (startswith (lower value) "\\.\pipe") eqn:Es; rewrite En in Es; simpl.
      * done.
      * split; [done|]. intros (? & _). congruence.
    + split; [done|]. intros (_ & Hl & Hr%rstrip_backslash).
      apply bool_decide_eq_false in En. rewrite Hr in En. done.
  - destruct (bool_decide (strip value = "")) eqn:Eb.
    + apply bool_decide_eq_true, strip_empty in Eb. split; [done|]. intros [? _]. congruence.
    + apply bool_decide_eq_false in Eb. rewrite strip_empty in Eb.
      apply not_true_is_false in Eb.
      destruct (is_dir value w); split; try done. by intros [_ ?].
Qed.

Lemma validate_default_path_accepts_witness :
  validate_default_path (λ _ _, false) None (boot true) = Passes
  ∧ validate_default_path (λ _ _, false) (Some "\\.\pipe\app") (boot true) = Passes
  ∧ validate_default_path (λ _ _, false) (Some "\\.\pipe\App") (boot true)
    = SocketValidateError "\\.\pipe\App"
  ∧ validate_default_path (λ _ _, false) (Some "/run/app.sock") (boot false) = Passes.
Proof.
  split; [|split; [|split]].
  - apply (validate_default_path_accepts (λ _ _, false) "" (boot true) eq_refl).
  - apply (proj1 (proj2 (validate_default_path_accepts (λ _ _, false) "\\.\pipe\app"
                           (boot true) eq_refl)) eq_refl).
    split_and!; reflexivity.
  - reflexivity.
  - apply (proj2 (proj2 (validate_default_path_accepts (λ _ _, false) "/run/app.sock"
                           (boot false) eq_refl)) eq_refl).
    split; reflexivity.
Defined.

(** X25. A [default_path] that the validator accepted is the address: with
    nothing cached, [socket_path] returns it as it is, on every platform and
    whatever the environment. *)
Theorem validated_default_path_is_address is_dir self p value :
  ascii_only value = true →
  default_path (socket_clients p self) = Some value →
  validate_default_path is_dir (Some value) (os p) = Passes →
  socket_path_cache (socket_clients p self) = None →
  (socket_path self p).1 = Return value.
Proof.
  intros _ Hd Hv Hc. rewrite socket_path_result, Hc, Hd.
  destruct value as [|a s]; [|done].
  unfold validate_default_path in Hv. done.
Qed.

Lemma validated_default_path_is_address_witness :
  (socket_path 0%nat
     {| lock_clients := λ _, new_LockClient;
        socket_clients := λ _, {| name := "app"; default_path := Some "/run/app.sock";
                                  _pipe := None; socket_path_cache := None |};
        os := at_home [];
        logged := [] |}).1
  = Return "/run/app.sock".
Proof.
  apply (validated_default_path_is_address (λ _ _, false) 0%nat
           {| lock_clients := λ _, new_LockClient;
              socket_clients := λ _, {| name := "app"; default_path := Some "/run/app.sock";
                                        _pipe := None; socket_path_cache := None |};
              os := at_home [];
              logged := [] |} "/run/app.sock"); reflexivity.
Defined.
